(** * Tubonge chat: presence registry, socket handlers and client de-duplication

    A shallow embedding of the Socket.io part of the Tubonge server
    (two revisions of [server.js], kept under [src/unnamed/part_000] and
    [src/unnamed/part_001]) and of the [newMessage] listener of the React
    client ([Chat.jsx], latest revision), with the properties of the
    real-time layer proved over it.

    Conventions.
    - A JavaScript [Map] is an association list in insertion order.
    - Handlers are written in a small monad [M] threading the server state,
      with exceptions ([throw] / [try_catch]) and a log of the calls the
      handler makes on its collaborators (socket emissions, message store).
    - The message store ([models/Message.js]) and [jsonwebtoken] are not
      part of the sources modelled here; they are taken as parameters. *)

From Stdlib Require Import ZArith Ascii.
From stdpp Require Import base option list strings sorting.

Local Open Scope string_scope.
Local Open Scope list_scope.

(* ===================================================================== *)
(** ** JavaScript values as they arrive in socket payloads *)
(* ===================================================================== *)

#[warnings="-register-all"]
Inductive JSValue : Type :=
| JUndefined
| JNull
| JBool (b : bool)
| JNumber (z : Z)
| JString (s : string)
| JObject (fields : list (string * JSValue)).

(** [!v] is [negb (truthy v)]. *)
Definition truthy (v : JSValue) : bool :=
  match v with
  | JUndefined | JNull => false
  | JBool b => b
  | JNumber z => negb (z =? 0)%Z
  | JString s => negb (String.eqb s "")
  | JObject _ => true
  end.

(** First binding of [name] in a field list. *)
Fixpoint lookup_field (name : string) (fields : list (string * JSValue)) : JSValue :=
  match fields with
  | [] => JUndefined
  | (k, v) :: rest => if String.eqb k name then v else lookup_field name rest
  end.

Inductive JSError : Type :=
| TypeError     (* property read on undefined / null *)
| StoreError.   (* rejection of a message-store promise *)

Inductive Result (A : Type) : Type :=
| Ok (a : A)
| Throw (e : JSError).
Arguments Ok {A} a.
Arguments Throw {A} e.

(** [v.name]: throws on [undefined] and [null], is [undefined] on the other
    primitives, reads the field on an object. *)
Definition get_property (v : JSValue) (name : string) : Result JSValue :=
  match v with
  | JUndefined | JNull => Throw TypeError
  | JObject fields => Ok (lookup_field name fields)
  | _ => Ok JUndefined
  end.

(* ===================================================================== *)
(** ** [Map]: insertion-ordered association list *)
(* ===================================================================== *)

Abbreviation JSMap V := (list (string * V)).

(** [m.set(k, v)]: the value of an existing key is replaced where it stands,
    a new key is appended. *)
Fixpoint map_set {V : Type} (k : string) (v : V) (m : JSMap V) : JSMap V :=
  match m with
  | [] => [(k, v)]
  | (k', v') :: rest =>
      if String.eqb k' k then (k', v) :: rest
      else (k', v') :: map_set k v rest
  end.

(** [m.delete(k)]. *)
Fixpoint map_delete {V : Type} (k : string) (m : JSMap V) : JSMap V :=
  match m with
  | [] => []
  | (k', v') :: rest =>
      if String.eqb k' k then rest else (k', v') :: map_delete k rest
  end.

(** [m.get(k)]. *)
Fixpoint map_get {V : Type} (k : string) (m : JSMap V) : option V :=
  match m with
  | [] => None
  | (k', v') :: rest => if String.eqb k' k then Some v' else map_get k rest
  end.

(** [Array.from(m.keys())] and [Array.from(m.values())]. *)
Definition map_keys {V : Type} (m : JSMap V) : list string := m.*1.
Definition map_values {V : Type} (m : JSMap V) : list V := m.*2.

(* ===================================================================== *)
(** ** Data of the server *)
(* ===================================================================== *)

(** [socket.user]: the decoded token. *)
Record Identity : Type := mkIdentity {
  id : string;
  username : string
}.

(** An admitted socket. [socket.id] is generated by Socket.io and is unique
    per connection; it is drawn here from a counter of the server state. *)
Record Socket : Type := mkSocket {
  socket_id : nat;
  user : Identity
}.

(** The object stored in [activeUsers]. Revision [part_000] stores
    [{id, username, socketId}], revision [part_001] stores
    [{username, socketId}]: there [entry_id] is [None]. *)
Record PresenceEntry : Type := mkEntry {
  entry_id : option string;
  entry_username : string;
  entry_socketId : nat
}.

(** [new Message({sender, content, timestamp})]; [_id] is assigned when the
    document is constructed. *)
Record MessageDoc : Type := mkDoc {
  doc_id : string;
  doc_sender : string;
  doc_content : JSValue;
  doc_timestamp : Z
}.

(** [{_id, username}] after [populate('sender', 'username')]. *)
Record UserRef : Type := mkUserRef {
  ref_id : string;
  ref_username : string
}.

Record PopulatedMessage : Type := mkPopulated {
  pm_id : string;
  pm_sender : option UserRef;
  pm_content : JSValue;
  pm_timestamp : Z
}.

Inductive Event : Type :=
| ActiveUsers (roster : list PresenceEntry)
| NewMessage (m : option PopulatedMessage)   (* [findById] may yield null *)
| UserTyping (name : string)
| UserStopTyping (name : string)
| ErrorEvent (message : string).

Inductive EmitCall : Type :=
| IoEmit                         (* io.emit *)
| SocketEmit (sid : nat)         (* socket.emit *)
| SocketBroadcastEmit (sid : nat). (* socket.broadcast.emit *)

(** What a handler does to the outside, in order. An emission records the
    sockets it is delivered to. *)
Inductive Action : Type :=
| Emitted (call : EmitCall) (ev : Event) (recipients : list nat)
| CallSave (doc : MessageDoc)          (* message.save() *)
| CallFindById (mid : string)          (* Message.findById(..).populate(..) *)
| Join (sid : nat) (room : string)     (* socket.join *)
| ConnectError (message : string).     (* next(new Error(..)) in the middleware *)

(** The message store, as the handlers use it. [None] is a rejected
    promise. *)
Class MessageStore (DB : Type) : Type := {
  Message_save : MessageDoc -> DB -> option DB;
  Message_findById_populate : string -> DB -> option (option PopulatedMessage)
}.

(** The store reads back, for a record it has just saved, the sender it was
    saved with (when the sender resolves). *)
Definition reads_back_sender {DB : Type} (store : MessageStore DB) : Prop :=
  forall doc d d' p r,
    Message_save doc d = Some d' ->
    Message_findById_populate (doc_id doc) d' = Some (Some p) ->
    pm_sender p = Some r -> ref_id r = doc_sender doc.

(* ===================================================================== *)
(** ** The handler monad *)
(* ===================================================================== *)

Section Server.

Context {DB : Type} {store : MessageStore DB}.

(** [jwt.verify(token, process.env.JWT_SECRET)]; [None] when it throws. *)
Variable jwt_verify : JSValue -> option Identity.

(** Process-wide state: the [activeUsers] map, the sockets connected to the
    namespace (the recipients of [io.emit]), the next socket id, and the
    message store. *)
Record State : Type := mkState {
  activeUsers : JSMap PresenceEntry;
  sockets : list Socket;
  next_socket_id : nat;
  db : DB
}.

Definition M (A : Type) : Type := State -> Result A * State * list Action.

Definition ret {A : Type} (a : A) : M A := fun st => (Ok a, st, []).

Definition bind {A B : Type} (m : M A) (f : A -> M B) : M B := fun st =>
  match m st with
  | (Ok a, st1, t1) => let '(r, st2, t2) := f a st1 in (r, st2, t1 ++ t2)
  | (Throw e, st1, t1) => (Throw e, st1, t1)
  end.

Definition throw {A : Type} (e : JSError) : M A := fun st => (Throw e, st, []).

(** [try { body } catch (error) { handler }]. *)
Definition try_catch {A : Type} (body : M A) (handler : JSError -> M A) : M A :=
  fun st =>
    match body st with
    | (Ok a, st1, t1) => (Ok a, st1, t1)
    | (Throw e, st1, t1) => let '(r, st2, t2) := handler e st1 in (r, st2, t1 ++ t2)
    end.

Definition lift {A : Type} (r : Result A) : M A := fun st => (r, st, []).

Definition tell (a : Action) : M unit := fun st => (Ok tt, st, [a]).

Definition get_state : M State := fun st => (Ok st, st, []).

Definition put_state (st : State) : M unit := fun _ => (Ok tt, st, []).

Notation "x <- m ;; k" := (bind m (fun x => k))
  (at level 100, m at next level, right associativity).
Notation "m ;; k" := (bind m (fun _ => k))
  (at level 100, right associativity).

(** *** Socket.io emissions *)

(** [io.emit(ev)]: every socket connected to the namespace. *)
Definition io_emit (ev : Event) : M unit := fun st =>
  (Ok tt, st, [Emitted IoEmit ev (socket_id <$> sockets st)]).

(** [socket.emit(ev)]: that socket alone. *)
Definition socket_emit (socket : Socket) (ev : Event) : M unit :=
  tell (Emitted (SocketEmit (socket_id socket)) ev [socket_id socket]).

(** [socket.broadcast.emit(ev)]: every connected socket but this one. *)
Definition socket_broadcast_emit (socket : Socket) (ev : Event) : M unit := fun st =>
  (Ok tt, st,
   [Emitted (SocketBroadcastEmit (socket_id socket)) ev
      (filter (fun r => r <> socket_id socket) (socket_id <$> sockets st))]).

(** *** The [activeUsers] map *)

Definition with_activeUsers (m : JSMap PresenceEntry) (st : State) : State :=
  mkState m (sockets st) (next_socket_id st) (db st).

Definition activeUsers_set (k : string) (v : PresenceEntry) : M unit := fun st =>
  (Ok tt, with_activeUsers (map_set k v (activeUsers st)) st, []).

Definition activeUsers_delete (k : string) : M unit := fun st =>
  (Ok tt, with_activeUsers (map_delete k (activeUsers st)) st, []).

(** [Array.from(activeUsers.values())]. *)
Definition activeUsers_values : M (list PresenceEntry) := fun st =>
  (Ok (map_values (activeUsers st)), st, []).

(** *** The message store *)

Definition with_db (d : DB) (st : State) : State :=
  mkState (activeUsers st) (sockets st) (next_socket_id st) d.

(** [await message.save()]. *)
Definition message_save (message : MessageDoc) : M unit := fun st =>
  match Message_save message (db st) with
  | Some d => (Ok tt, with_db d st, [CallSave message])
  | None => (Throw StoreError, st, [CallSave message])
  end.

(** [await Message.findById(mid).populate('sender', 'username')]. *)
Definition message_findById_populate (mid : string) : M (option PopulatedMessage) := fun st =>
  match Message_findById_populate mid (db st) with
  | Some found => (Ok found, st, [CallFindById mid])
  | None => (Throw StoreError, st, [CallFindById mid])
  end.

(** *** Handlers common to both revisions of the server *)

(** [socket.on('sendMessage', async (data) => { try {..} catch (error) {..} })].
    [fresh_id] is the [_id] the constructor assigns, [now] is [new Date()].
    This is the handler run without other events between its [await]s;
    [sendMessage_dispatch] and [resume] below split it at the [await]s. *)
Definition on_sendMessage (socket : Socket) (data : JSValue)
    (fresh_id : string) (now : Z) : M unit :=
  try_catch
    (content <- lift (get_property data "content") ;;
     let message := mkDoc fresh_id (id (user socket)) content now in
     message_save message ;;
     populatedMessage <- message_findById_populate (doc_id message) ;;
     io_emit (NewMessage populatedMessage))
    (fun error => socket_emit socket (ErrorEvent "Failed to send message")).

(** [socket.on('typing', ..)] and [socket.on('stopTyping', ..)]. *)
Definition on_typing (socket : Socket) : M unit :=
  socket_broadcast_emit socket (UserTyping (username (user socket))).

Definition on_stopTyping (socket : Socket) : M unit :=
  socket_broadcast_emit socket (UserStopTyping (username (user socket))).

(** [socket.on('disconnect', ..)]. *)
Definition on_disconnect (socket : Socket) : M unit :=
  activeUsers_delete (id (user socket)) ;;
  roster <- activeUsers_values ;;
  io_emit (ActiveUsers roster).

(** *** Revision [part_000] *)

(** [io.use((socket, next) => {..})]: [inl] is [socket.user = decoded; next()],
    [inr msg] is [next(new Error(msg))]. The only call of the [try] block that
    throws is [jwt.verify]. *)
Definition auth_middleware (token : JSValue) : Identity + string :=
  if negb (truthy token) then inr "Authentication error: No token provided"
  else match jwt_verify token with
       | Some decoded => inl decoded
       | None => inr "Authentication error: Invalid token"
       end.

(** [io.on('connection', (socket) => {..})] up to the registration of the
    listeners. *)
Definition on_connection (socket : Socket) : M unit :=
  activeUsers_set (id (user socket))
    (mkEntry (Some (id (user socket))) (username (user socket)) (socket_id socket)) ;;
  mine <- activeUsers_values ;;
  socket_emit socket (ActiveUsers mine) ;;
  others <- activeUsers_values ;;
  socket_broadcast_emit socket (ActiveUsers others) ;;
  tell (Join (socket_id socket) (id (user socket))).

(** *** Revision [part_001] *)

Definition on_connection_part001 (socket : Socket) : M unit :=
  activeUsers_set (id (user socket))
    (mkEntry None (username (user socket)) (socket_id socket)) ;;
  roster <- activeUsers_values ;;
  io_emit (ActiveUsers roster) ;;
  tell (Join (socket_id socket) (id (user socket))).

(** *** The server as a transition system (revision [part_000]) *)

Inductive Input : Type :=
| Connect (token : JSValue)        (* a handshake carrying [auth.token] *)
| SendMessage (sid : nat) (data : JSValue) (fresh_id : string) (now : Z)
| Typing (sid : nat)
| StopTyping (sid : nat)
| Disconnect (sid : nat).

Definition find_socket (sid : nat) (l : list Socket) : option Socket :=
  List.find (fun s => Nat.eqb (socket_id s) sid) l.

(** Socket.io adds the socket to the namespace before it fires
    ['connection']. *)
Definition accept_socket (decoded : Identity) : M Socket := fun st =>
  let socket := mkSocket (next_socket_id st) decoded in
  (Ok socket,
   mkState (activeUsers st) (sockets st ++ [socket]) (S (next_socket_id st)) (db st),
   []).

(** Socket.io removes the socket from the namespace before it fires
    ['disconnect']. *)
Definition remove_socket (sid : nat) : M unit := fun st =>
  (Ok tt,
   mkState (activeUsers st)
     (filter (fun s => socket_id s <> sid) (sockets st))
     (next_socket_id st) (db st),
   []).

(** Events of sockets that are not connected are not dispatched. *)
Definition with_socket (sid : nat) (handler : Socket -> M unit) : M unit := fun st =>
  match find_socket sid (sockets st) with
  | Some socket => handler socket st
  | None => (Ok tt, st, [])
  end.

Definition step (i : Input) : M unit :=
  match i with
  | Connect token =>
      match auth_middleware token with
      | inl decoded => socket <- accept_socket decoded ;; on_connection socket
      | inr msg => tell (ConnectError msg)
      end
  | SendMessage sid data fresh_id now =>
      with_socket sid (fun socket => on_sendMessage socket data fresh_id now)
  | Typing sid => with_socket sid on_typing
  | StopTyping sid => with_socket sid on_stopTyping
  | Disconnect sid =>
      with_socket sid (fun socket => remove_socket sid ;; on_disconnect socket)
  end.

(** An exception that escapes a handler ends the process: the run stops. *)
Fixpoint run (inputs : list Input) : M unit :=
  match inputs with
  | [] => ret tt
  | i :: rest => step i ;; run rest
  end.

Definition init_state (d : DB) : State := mkState [] [] 0 d.

End Server.

Arguments State DB : clear implicits.
Arguments M DB A : clear implicits.

(* ===================================================================== *)
(** ** The presence registry seen as register / unregister operations *)
(* ===================================================================== *)

(** What [on_connection] and [on_disconnect] do to [activeUsers]. *)
Definition register (socket : Socket) (m : JSMap PresenceEntry) : JSMap PresenceEntry :=
  map_set (id (user socket))
    (mkEntry (Some (id (user socket))) (username (user socket)) (socket_id socket)) m.

Definition register_part001 (socket : Socket) (m : JSMap PresenceEntry) : JSMap PresenceEntry :=
  map_set (id (user socket))
    (mkEntry None (username (user socket)) (socket_id socket)) m.

Definition unregister (uid : string) (m : JSMap PresenceEntry) : JSMap PresenceEntry :=
  map_delete uid m.

Inductive RegistryOp : Type :=
| Register (socket : Socket)
| Unregister (uid : string).

Definition apply_op (m : JSMap PresenceEntry) (op : RegistryOp) : JSMap PresenceEntry :=
  match op with
  | Register socket => register socket m
  | Unregister uid => unregister uid m
  end.

Definition apply_op_part001 (m : JSMap PresenceEntry) (op : RegistryOp) : JSMap PresenceEntry :=
  match op with
  | Register socket => register_part001 socket m
  | Unregister uid => unregister uid m
  end.

(** The registry after a sequence of operations, starting from [new Map()]. *)
Definition registry_after (ops : list RegistryOp) : JSMap PresenceEntry :=
  fold_left apply_op ops [].

Definition registry_after_part001 (ops : list RegistryOp) : JSMap PresenceEntry :=
  fold_left apply_op_part001 ops [].

(** [roster_count uid roster]: the number of records of the snapshot that
    carry the id [uid]. *)
Definition roster_count (uid : string) (roster : list PresenceEntry) : nat :=
  length (filter (fun e => entry_id e = Some uid) roster).

(** The time (index in the history) at which the current entry of [k] was
    inserted: the first registration of [k] since its last removal. The
    history is read most recent operation first. *)
Fixpoint inserted_at_rev (h : list RegistryOp) (k : string) : option nat :=
  match h with
  | [] => None
  | Register socket :: earlier =>
      if String.eqb (id (user socket)) k then
        match inserted_at_rev earlier k with
        | Some t => Some t
        | None => Some (length earlier)
        end
      else inserted_at_rev earlier k
  | Unregister uid :: earlier =>
      if String.eqb uid k then None else inserted_at_rev earlier k
  end.

Definition inserted_at (ops : list RegistryOp) (k : string) : option nat :=
  inserted_at_rev (rev ops) k.

(** [k1] holds an entry that was inserted before the entry of [k2]. *)
Definition inserted_before (ops : list RegistryOp) (k1 k2 : string) : Prop :=
  exists t1 t2, inserted_at ops k1 = Some t1 /\ inserted_at ops k2 = Some t2 /\ t1 < t2.

(** Every record of the registry of [part_000] carries the key it is stored
    under. *)
Definition keyed (m : JSMap PresenceEntry) : Prop :=
  Forall (fun p => entry_id p.2 = Some p.1) m.

(** The registry lists exactly the ids that have an insertion time, the
    times lie in the history, and the keys are sorted by insertion time. *)
Definition insertion_ordered (ops : list RegistryOp) (m : JSMap PresenceEntry) : Prop :=
  (forall k, k ∈ map_keys m <-> is_Some (inserted_at ops k))
  /\ (forall k t, inserted_at ops k = Some t -> t < length ops)
  /\ StronglySorted (inserted_before ops) (map_keys m).

Section History.

Context {DB : Type} {store : MessageStore DB}.
Variable jwt_verify : JSValue -> option Identity.

(** Socket ids are drawn from the counter: connected sockets have smaller ids. *)
Definition fresh_counter (st : State DB) : Prop :=
  Forall (fun s => socket_id s < next_socket_id st) (sockets st).

(** The registry operation an input triggers in a given state. *)
Definition ops_of_step (i : Input) (st : State DB) : list RegistryOp :=
  match i with
  | Connect token =>
      match auth_middleware jwt_verify token with
      | inl decoded => [Register (mkSocket (next_socket_id st) decoded)]
      | inr _ => []
      end
  | Disconnect sid =>
      match find_socket sid (sockets st) with
      | Some socket => [Unregister (id (user socket))]
      | None => []
      end
  | _ => []
  end.

Fixpoint history (inputs : list Input) (st : State DB) : list RegistryOp :=
  match inputs with
  | [] => []
  | i :: rest => ops_of_step i st ++ history rest (step jwt_verify i st).1.2
  end.

(** State and log of a run. *)
Definition state_after (inputs : list Input) (st : State DB) : State DB :=
  (run jwt_verify inputs st).1.2.

Definition log_of (inputs : list Input) (st : State DB) : list Action :=
  (run jwt_verify inputs st).2.

End History.

(* ===================================================================== *)
(** ** A message store for concrete runs *)
(* ===================================================================== *)

Record MemDB : Type := mkMemDB {
  mem_users : list (string * string);     (* _id, username *)
  mem_messages : list MessageDoc
}.

Definition is_space (c : ascii) : bool :=
  match c with
  | " "%char | "009"%char | "010"%char | "011"%char | "012"%char | "013"%char => true
  | _ => false
  end.

Fixpoint is_blank (s : string) : bool :=
  match s with
  | EmptyString => true
  | String c rest => is_space c && is_blank rest
  end.

(** Modelled from the spec: the schema of [models/Message.js] is missing; the
    content of a ChatMessage is a non-empty string of at most 1000 code
    units, and empty or whitespace-only content is invalid. *)
Definition valid_content (v : JSValue) : bool :=
  match v with
  | JString s => negb (is_blank s) && Nat.leb (String.length s) 1000
  | _ => false
  end.

Definition populate (users : list (string * string)) (doc : MessageDoc) : PopulatedMessage :=
  mkPopulated (doc_id doc)
    (mkUserRef (doc_sender doc) <$> map_get (doc_sender doc) users)
    (doc_content doc) (doc_timestamp doc).

Definition find_message (mid : string) (l : list MessageDoc) : option MessageDoc :=
  List.find (fun doc => String.eqb (doc_id doc) mid) l.

(** Modelled from the spec: [models/Message.js] is missing; the store creates
    the record and reads it back with the sender resolved to its username.
    A record whose content is invalid, or whose id is taken, is rejected. *)
#[global] Instance SpecStore : MessageStore MemDB := {|
  Message_save doc d :=
    if valid_content (doc_content doc)
    then match find_message (doc_id doc) (mem_messages d) with
         | None => Some (mkMemDB (mem_users d) (mem_messages d ++ [doc]))
         | Some _ => None
         end
    else None;
  Message_findById_populate mid d :=
    Some (populate (mem_users d) <$> find_message mid (mem_messages d))
|}.



(** A token verifier for concrete runs: two known tokens. *)
Definition demo_verify (token : JSValue) : option Identity :=
  match token with
  | JString "alice-token" => Some (mkIdentity "u1" "alice")
  | JString "bob-token" => Some (mkIdentity "u2" "bob")
  | JString "alice-renamed-token" => Some (mkIdentity "u1" "alice2")
  | _ => None
  end.

(** Concrete data: two users, both connected. *)
Definition alice : Identity := mkIdentity "u1" "alice".
Definition bob : Identity := mkIdentity "u2" "bob".
Definition alice_socket : Socket := mkSocket 0 alice.
Definition bob_socket : Socket := mkSocket 1 bob.

Definition demo_db : MemDB := mkMemDB [("u1", "alice"); ("u2", "bob")] [].

Definition demo_inputs : list Input :=
  [Connect (JString "alice-token"); Connect (JString "bob-token")].

Definition demo_state : State MemDB :=
  state_after demo_verify demo_inputs (init_state demo_db).


Definition hi_payload : JSValue :=
  JObject [("content", JString "hi"); ("sender", JString "u1")].
Definition hi_payload_spoofed : JSValue :=
  JObject [("content", JString "hi"); ("sender", JString "u9")].

(* ===================================================================== *)
(** ** Reading a log *)
(* ===================================================================== *)

(** The report of a failed [sendMessage]: [socket.emit('error', ..)]. *)
Definition failed_to_send (socket : Socket) : Action :=
  Emitted (SocketEmit (socket_id socket)) (ErrorEvent "Failed to send message")
    [socket_id socket].

(** The payloads of the [activeUsers] emissions of a log. *)
Fixpoint emitted_rosters (log : list Action) : list (list PresenceEntry) :=
  match log with
  | [] => []
  | Emitted _ (ActiveUsers roster) _ :: rest => roster :: emitted_rosters rest
  | _ :: rest => emitted_rosters rest
  end.

(** The [newMessage] emissions of a log, each with its recipients. *)
Fixpoint new_message_emissions (log : list Action)
  : list (option PopulatedMessage * list nat) :=
  match log with
  | [] => []
  | Emitted _ (NewMessage m) to :: rest => (m, to) :: new_message_emissions rest
  | _ :: rest => new_message_emissions rest
  end.

(** The records handed to [save] in a log. *)
Fixpoint saved_docs (log : list Action) : list MessageDoc :=
  match log with
  | [] => []
  | CallSave doc :: rest => doc :: saved_docs rest
  | _ :: rest => saved_docs rest
  end.

(** All deliveries of a log: recipient and event. *)
Fixpoint deliveries (log : list Action) : list (nat * Event) :=
  match log with
  | [] => []
  | Emitted _ ev to :: rest => ((fun r => (r, ev)) <$> to) ++ deliveries rest
  | _ :: rest => deliveries rest
  end.

(* ===================================================================== *)
(** ** The client: the [newMessage] listener of [Chat.jsx] *)
(* ===================================================================== *)

Module Client.

(** A message as it arrives over the socket or from the history endpoint.
    Identifiers and contents are JSON strings; [None] stands for a missing,
    [undefined] or [null] field. *)
Record Message : Type := mkMessage {
  _id : option string;
  sender : option UserRef;
  content : option string;
  timestamp : option Z
}.

(** [!v] for an optional string: missing and [""] are falsy. *)
Definition falsy (v : option string) : bool :=
  match v with
  | None => true
  | Some s => String.eqb s ""
  end.

(** [a === b] on optional strings. *)
Definition strict_eq (a b : option string) : bool :=
  match a, b with
  | Some x, Some y => String.eqb x y
  | None, None => true
  | _, _ => false
  end.

(** The listener of the latest revision; [prev] is the [messages] state and
    the result is the state after the update. A [null] event is [None]. *)
Definition on_newMessage (message : option Message) (prev : list Message) : list Message :=
  match message with
  | None => prev
  | Some message =>
      if falsy (_id message) then prev
      else if falsy (content message) then prev
      else
        let exists_ := existsb (fun msg => strict_eq (_id msg) (_id message)) prev in
        if exists_ then prev else prev ++ [message]
  end.

(** The listener of the earlier revisions: [setMessages(prev => [...prev, message])]. *)
Definition on_newMessage_earlier (message : option Message) (prev : list (option Message))
  : list (option Message) :=
  prev ++ [message].

End Client.

(* ===================================================================== *)
(** ** The rest of the server: configuration and health *)
(* ===================================================================== *)

(** [process.env.X || fallback]: an unset or empty variable falls back. *)
Definition env_or (v : option string) (fallback : string) : string :=
  match v with
  | Some s => if String.eqb s "" then fallback else s
  | None => fallback
  end.

(** [const frontendUrl = process.env.FRONTEND_URL || 'http://localhost:5173']. *)
Definition frontendUrl (FRONTEND_URL : option string) : string :=
  env_or FRONTEND_URL "http://localhost:5173".

(** [s.replace(/\/$/, '')]: one slash at the very end of the string is
    removed. *)
Fixpoint strip_trailing_slash (s : string) : string :=
  match s with
  | EmptyString => EmptyString
  | String c rest =>
      match rest with
      | EmptyString => if Ascii.eqb c "/" then EmptyString else s
      | String _ _ => String c (strip_trailing_slash rest)
      end
  end.

(** [const cleanFrontendUrl = frontendUrl.replace(/\/$/, '')] ([part_000]). *)
Definition cleanFrontendUrl (FRONTEND_URL : option string) : string :=
  strip_trailing_slash (frontendUrl FRONTEND_URL).

(** The [origin] function of the Socket.io CORS options of [part_000]:
    [None] is [callback(null, true)], [Some msg] is
    [callback(new Error(msg))]. The request origin is absent ([None]) or a
    string. *)
Definition socket_cors_origin (FRONTEND_URL NODE_ENV : option string)
    (origin : option string) : option string :=
  let no_origin := match origin with None => true | Some o => String.eqb o "" end in
  let is_frontend :=
    match origin with
    | Some o => String.eqb o (cleanFrontendUrl FRONTEND_URL)
    | None => false
    end in
  let not_production :=
    match NODE_ENV with
    | Some e => negb (String.eqb e "production")
    | None => true
    end in
  if no_origin || is_frontend || not_production then None
  else Some "Not allowed by CORS".

Section Health.

Context {DB : Type}.

(** The [activeUsers] field of the [/health] response: [activeUsers.size]. *)
Definition health_activeUsers (st : State DB) : nat := length (activeUsers st).

(** Connected sockets have pairwise distinct ids, all below the counter. *)
Definition sockets_wf (st : State DB) : Prop :=
  NoDup (socket_id <$> sockets st) /\ fresh_counter st.

(** Every record of the registry describes a connected socket of the
    identity it is stored under. *)
Definition registry_connected (st : State DB) : Prop :=
  Forall (fun p => exists s, s ∈ sockets st
            /\ p.2 = mkEntry (Some p.1) (username (user s)) (socket_id s)
            /\ id (user s) = p.1)
    (activeUsers st).

End Health.

(** The recipients of the emissions of a log. *)
Fixpoint recipients_of (log : list Action) : list nat :=
  match log with
  | [] => []
  | Emitted _ _ to :: rest => to ++ recipients_of rest
  | _ :: rest => recipients_of rest
  end.

(** The socket an event of a connected client comes from. *)
Definition input_socket (i : Input) : option nat :=
  match i with
  | Connect _ => None
  | SendMessage sid _ _ _ => Some sid
  | Typing sid => Some sid
  | StopTyping sid => Some sid
  | Disconnect sid => Some sid
  end.

(* ===================================================================== *)
(** ** The client: the socket module ([utils/socket.js]) *)
(* ===================================================================== *)

Module SocketJs.

(** The module variable [socket] (a handle, or [null]) and, as the world
    outside, the sockets that [io()] has created and on which [disconnect()]
    has not been called, each with the token of its [auth] option. *)
Record World : Type := mkWorld {
  socket : option nat;
  opened : list (nat * JSValue);
  next_handle : nat
}.

Definition init : World := mkWorld None [] 0.

(** [socket.disconnect()]. *)
Definition disconnect (h : nat) (w : World) : World :=
  mkWorld (socket w) (filter (fun p => p.1 <> h) (opened w)) (next_handle w).

(** [if (socket) { socket.disconnect(); socket = null; }]. *)
Definition drop_current (w : World) : World :=
  match socket w with
  | Some h => let w1 := disconnect h w in mkWorld None (opened w1) (next_handle w1)
  | None => w
  end.

(** [initializeSocket(token)]: returns the new socket. *)
Definition initializeSocket (token : JSValue) (w : World) : nat * World :=
  let w1 := drop_current w in
  let h := next_handle w1 in
  (h, mkWorld (Some h) (opened w1 ++ [(h, token)]) (S h)).

Definition getSocket (w : World) : option nat := socket w.

Definition disconnectSocket (w : World) : World := drop_current w.

Inductive Call : Type :=
| InitializeSocket (token : JSValue)
| DisconnectSocket.

Definition call (w : World) (c : Call) : World :=
  match c with
  | InitializeSocket token => (initializeSocket token w).2
  | DisconnectSocket => disconnectSocket w
  end.

Definition after (calls : list Call) : World := fold_left call calls init.

End SocketJs.

(** The only socket that is open is the current one. *)
Definition one_open_socket (w : SocketJs.World) : Prop :=
  match SocketJs.socket w with
  | Some h => exists token, SocketJs.opened w = [(h, token)]
  | None => SocketJs.opened w = []
  end.

(* ===================================================================== *)
(** ** The client: listeners, selection and composer of [Chat.jsx] *)
(* ===================================================================== *)

Module Chat.

(** *** The listeners of the socket *)

(** The callbacks the client registers: the four loggers of
    [initializeSocket], the five listeners of [setupSocketListeners], and the
    ['connect'] callback of the effect, which calls [setupSocketListeners]. *)
Inductive Handler : Type :=
| LogConnect | LogDisconnect | LogConnectError | LogError
| OnActiveUsers | OnNewMessage | OnUserTyping | OnUserStopTyping | OnError
| OnConnectSetup.

#[global] Instance Handler_eq_dec : EqDecision Handler.
Proof. solve_decision. Defined.

Record Listener : Type := mkListener {
  event : string;
  handler : Handler;
  once : bool
}.

#[global] Instance Listener_eq_dec : EqDecision Listener.
Proof. solve_decision. Defined.

(** [socket.on(ev, h)], [socket.once(ev, h)], [socket.off(ev)]. *)
Definition on (ev : string) (h : Handler) (t : list Listener) : list Listener :=
  t ++ [mkListener ev h false].

Definition once_ (ev : string) (h : Handler) (t : list Listener) : list Listener :=
  t ++ [mkListener ev h true].

Definition off (ev : string) (t : list Listener) : list Listener :=
  filter (fun l => event l <> ev) t.

(** [off(ev, h)] of one listener: the first one that matches. *)
Fixpoint remove_first (l : Listener) (t : list Listener) : list Listener :=
  match t with
  | [] => []
  | x :: rest => if decide (x = l) then rest else x :: remove_first l rest
  end.

(** The listeners [initializeSocket] registers on a new socket. *)
Definition initial_listeners : list Listener :=
  on "error" LogError
    (on "connect_error" LogConnectError
       (on "disconnect" LogDisconnect (on "connect" LogConnect []))).

Inductive Revision : Type :=
| Rev1    (* Chat.jsx, lines 1-176 *)
| Rev2    (* utils/socket.js, lines 56-299 *)
| Rev3.   (* utils/socket.js, lines 301-611: the latest *)

(** [setupSocketListeners()], on a socket that exists. *)
Definition setupSocketListeners (rev : Revision) (t : list Listener) : list Listener :=
  match rev with
  | Rev1 =>
      on "error" OnError
        (on "userStopTyping" OnUserStopTyping
           (on "userTyping" OnUserTyping
              (on "activeUsers" OnActiveUsers (on "newMessage" OnNewMessage t))))
  | Rev2 =>
      on "error" OnError
        (on "userStopTyping" OnUserStopTyping
           (on "userTyping" OnUserTyping
              (on "newMessage" OnNewMessage (on "activeUsers" OnActiveUsers t))))
  | Rev3 =>
      let t := off "error" (off "userStopTyping" (off "userTyping"
                 (off "newMessage" (off "activeUsers" t)))) in
      on "error" OnError
        (on "userStopTyping" OnUserStopTyping
           (on "userTyping" OnUserTyping
              (on "newMessage" OnNewMessage (on "activeUsers" OnActiveUsers t))))
  end.

(** The part of the effect that follows [initializeSocket]; [connected] is
    [socketRef.current.connected] at that moment. *)
Definition mount (rev : Revision) (connected : bool) (t : list Listener) : list Listener :=
  match rev with
  | Rev1 => if connected then setupSocketListeners Rev1 t else on "connect" OnConnectSetup t
  | Rev2 => on "connect" OnConnectSetup (setupSocketListeners Rev2 t)
  | Rev3 => if connected then setupSocketListeners Rev3 t else once_ "connect" OnConnectSetup t
  end.

(** What calling a listener does to the table of listeners. *)
Definition react (rev : Revision) (h : Handler) (t : list Listener) : list Listener :=
  match h with
  | OnConnectSetup => setupSocketListeners rev t
  | _ => t
  end.

(** The emitter fires [ev]: the listeners registered for [ev] at that moment
    are called in order; a [once] listener is removed before it is called. *)
Definition fire (rev : Revision) (ev : string) (t : list Listener) : list Listener :=
  fold_left
    (fun t l => react rev (handler l) (if once l then remove_first l t else t))
    (filter (fun l => event l = ev) t) t.

(** The table after the effect and [n] ['connect'] events (the first
    connection and the reconnections). *)
Fixpoint after_connects (rev : Revision) (connected : bool) (n : nat) : list Listener :=
  match n with
  | 0 => mount rev connected initial_listeners
  | S n => fire rev "connect" (after_connects rev connected n)
  end.

(** The handlers registered for an event, in call order. *)
Definition listeners_of (ev : string) (t : list Listener) : list Handler :=
  handler <$> filter (fun l => event l = ev) t.

(** A ['newMessage'] event changes the [messages] state once per registered
    [OnNewMessage] listener; the listener of the earlier revisions appends,
    the one of the latest revision is [Client.on_newMessage]. *)
Definition deliver_earlier (t : list Listener) (message : option Client.Message)
    (messages : list (option Client.Message)) : list (option Client.Message) :=
  fold_left
    (fun msgs h => match h with
                   | OnNewMessage => Client.on_newMessage_earlier message msgs
                   | _ => msgs
                   end)
    (listeners_of "newMessage" t) messages.

Definition deliver_latest (t : list Listener) (message : option Client.Message)
    (messages : list Client.Message) : list Client.Message :=
  fold_left
    (fun msgs h => match h with
                   | OnNewMessage => Client.on_newMessage message msgs
                   | _ => msgs
                   end)
    (listeners_of "newMessage" t) messages.

(** *** Selecting a user of the roster *)

(** The [user] prop, as far as the handlers read it. *)
Record User : Type := mkUser {
  _id : string;
  username : string
}.

(** [handleUserClick(clickedUser)] on the [selectedUser] state; the clicked
    record is a record of the roster. *)
Definition handleUserClick (user : User) (clickedUser : PresenceEntry)
    (selectedUser : option PresenceEntry) : option PresenceEntry :=
  if Client.strict_eq (entry_id clickedUser) (Some (_id user))
     || String.eqb (entry_username clickedUser) (username user)
  then selectedUser
  else Some clickedUser.

Definition handleBackToAll (selectedUser : option PresenceEntry) : option PresenceEntry :=
  None.

Inductive SelectionEvent : Type :=
| Click (clickedUser : PresenceEntry)
| Back.

Definition select (user : User) (selectedUser : option PresenceEntry)
    (e : SelectionEvent) : option PresenceEntry :=
  match e with
  | Click clickedUser => handleUserClick user clickedUser selectedUser
  | Back => handleBackToAll selectedUser
  end.

(** *** The composer: text, typing timer, sending *)

(** Text is a sequence of UTF-16 code units. The white space and line
    terminators that [String.prototype.trim] removes. *)
Definition is_whitespace (c : N) : bool :=
  ((9 <=? c) && (c <=? 13) || (c =? 32) || (c =? 160) || (c =? 5760)
   || (8192 <=? c) && (c <=? 8202) || (c =? 8232) || (c =? 8233)
   || (c =? 8239) || (c =? 8287) || (c =? 12288) || (c =? 65279))%N.

Fixpoint trim_start (s : list N) : list N :=
  match s with
  | [] => []
  | c :: rest => if is_whitespace c then trim_start rest else s
  end.

Definition trim_end (s : list N) : list N := rev (trim_start (rev s)).

(** [s.trim()]. *)
Definition trim (s : list N) : list N := trim_end (trim_start s).

(** The composer: the [newMessage] state, [typingTimeoutRef.current], the
    timers that are set and not cleared, the next timer id (timer ids are
    positive, hence truthy), and whether [socketRef.current] is set. *)
Record Composer : Type := mkComposer {
  newMessage : list N;
  typingTimeoutRef : option positive;
  pending : list positive;
  next_timer : positive;
  socketRef : bool
}.

Inductive Emit : Type :=
| EmitTyping
| EmitStopTyping
| EmitSendMessage (content : list N).

#[global] Instance Emit_eq_dec : EqDecision Emit.
Proof. solve_decision. Defined.

(** [handleTyping(e)] with [e.target.value = value]. An [emit] on a missing
    socket throws and ends the handler; the state update that came before it
    stays. *)
Definition handleTyping (value : list N) (c : Composer) : Composer * list Emit :=
  let c1 := mkComposer value (typingTimeoutRef c) (pending c) (next_timer c) (socketRef c) in
  let schedule (c : Composer) : Composer :=
    (* clearTimeout(typingTimeoutRef.current);
       typingTimeoutRef.current = setTimeout(.., 1000) *)
    let cleared := match typingTimeoutRef c with
                   | Some t => filter (fun x => x <> t) (pending c)
                   | None => pending c
                   end in
    mkComposer (newMessage c) (Some (next_timer c)) (cleared ++ [next_timer c])
      (Pos.succ (next_timer c)) (socketRef c) in
  match typingTimeoutRef c1 with
  | None => if socketRef c1 then (schedule c1, [EmitTyping]) else (c1, [])
  | Some _ => (schedule c1, [])
  end.

(** The callback of the typing timer [t]; it runs only if [t] is pending. *)
Definition typing_timeout (t : positive) (c : Composer) : Composer * list Emit :=
  if bool_decide (t ∈ pending c) then
    let rest := filter (fun x => x <> t) (pending c) in
    if socketRef c
    then (mkComposer (newMessage c) None rest (next_timer c) (socketRef c),
          [EmitStopTyping])
    else (mkComposer (newMessage c) (typingTimeoutRef c) rest (next_timer c) (socketRef c),
          [])
  else (c, []).

(** [handleSendMessage(e)], by revision. *)
Definition handleSendMessage (rev : Revision) (c : Composer) : Composer * list Emit :=
  let cleared := mkComposer [] (typingTimeoutRef c) (pending c) (next_timer c) (socketRef c) in
  match rev with
  | Rev3 =>
      if bool_decide (trim (newMessage c) = []) || negb (socketRef c) then (c, [])
      else (cleared, [EmitStopTyping; EmitSendMessage (trim (newMessage c))])
  | _ =>
      if bool_decide (trim (newMessage c) = []) then (c, [])
      else if socketRef c
           then (cleared, [EmitSendMessage (newMessage c); EmitStopTyping])
           else (c, [])
  end.

Inductive ComposerEvent : Type :=
| Change (value : list N)
| Submit
| TimerFires (t : positive).

Definition compose (rev : Revision) (e : ComposerEvent) (c : Composer)
  : Composer * list Emit :=
  match e with
  | Change value => handleTyping value c
  | Submit => handleSendMessage rev c
  | TimerFires t => typing_timeout t c
  end.

Fixpoint compose_all (rev : Revision) (events : list ComposerEvent) (c : Composer)
  : Composer * list Emit :=
  match events with
  | [] => (c, [])
  | e :: rest =>
      let '(c1, out1) := compose rev e c in
      let '(c2, out2) := compose_all rev rest c1 in
      (c2, out1 ++ out2)
  end.

(** The composer of a mounted component. *)
Definition composer_init (has_socket : bool) : Composer :=
  mkComposer [] None [] 1%positive has_socket.

Definition count_typing (out : list Emit) : nat :=
  length (filter (fun e => e = EmitTyping) out).

Definition count_stopTyping (out : list Emit) : nat :=
  length (filter (fun e => e = EmitStopTyping) out).

(** *** The typing indicator *)

(** [typingUser] and the 3-second timers that are set; they are never
    cleared. *)
Record Indicator : Type := mkIndicator {
  typingUser : option string;
  clear_timers : list positive;
  next_clear_timer : positive
}.

Inductive IndicatorEvent : Type :=
| UserTypingEvent (name : string)     (* ['userTyping'] with [{ username }] *)
| UserStopTypingEvent                 (* ['userStopTyping'] *)
| ClearTimerFires (t : positive).

Definition indicate (i : Indicator) (e : IndicatorEvent) : Indicator :=
  match e with
  | UserTypingEvent name =>
      mkIndicator (Some name) (clear_timers i ++ [next_clear_timer i])
        (Pos.succ (next_clear_timer i))
  | UserStopTypingEvent =>
      mkIndicator None (clear_timers i) (next_clear_timer i)
  | ClearTimerFires t =>
      if bool_decide (t ∈ clear_timers i)
      then mkIndicator None (filter (fun x => x <> t) (clear_timers i))
             (next_clear_timer i)
      else i
  end.

Definition indicator_init : Indicator := mkIndicator None [] 1%positive.

(** The indicator is rendered when [typingUser] is truthy. *)
Definition indicator_shown (i : Indicator) : bool :=
  negb (Client.falsy (typingUser i)).

End Chat.

(** The five listeners one call of [setupSocketListeners] registers. *)
Definition five_listeners (rev : Chat.Revision) : list Chat.Listener :=
  Chat.setupSocketListeners rev [].

(** [n] such calls, one after the other. *)
Fixpoint repeat_listeners (n : nat) (rev : Chat.Revision) : list Chat.Listener :=
  match n with
  | 0 => []
  | S n => repeat_listeners n rev ++ five_listeners rev
  end.

(** The events [setupSocketListeners] listens to. *)
Definition setup_events : list string :=
  ["activeUsers"; "newMessage"; "userTyping"; "userStopTyping"; "error"].

(** The listeners of a new socket of the latest revision once
    [setupSocketListeners] has run. *)
Definition latest_table : list Chat.Listener :=
  Chat.setupSocketListeners Chat.Rev3 Chat.initial_listeners.

(** What a content that is sent looks like. *)
Definition sendable (rev : Chat.Revision) (e : Chat.Emit) : Prop :=
  match e with
  | Chat.EmitSendMessage content =>
      Chat.trim content <> [] /\ (rev = Chat.Rev3 -> Chat.trim content = content)
  | _ => True
  end.

(** The typing timer of a composer with a socket: either none is set and
    [typingTimeoutRef] is empty, or exactly the one [typingTimeoutRef] names
    is pending. *)
Definition timer_in_step (c : Chat.Composer) : Prop :=
  Chat.socketRef c = true
  /\ ((Chat.typingTimeoutRef c = None /\ Chat.pending c = [])
      \/ exists t, Chat.typingTimeoutRef c = Some t /\ Chat.pending c = [t]).

(** A composer without a socket never sets a timer. *)
Definition no_timer (c : Chat.Composer) : Prop :=
  Chat.socketRef c = false /\ Chat.typingTimeoutRef c = None /\ Chat.pending c = [].

(** The clean-up of the effect, as far as the listeners go: the six [off]
    calls, the same in the three revisions. *)
Definition cleanup_listeners (t : list Chat.Listener) : list Chat.Listener :=
  Chat.off "connect" (Chat.off "error" (Chat.off "userStopTyping"
    (Chat.off "userTyping" (Chat.off "activeUsers" (Chat.off "newMessage" t))))).

(** The events the clean-up silences. *)
Definition cleanup_events : list string :=
  ["newMessage"; "activeUsers"; "userTyping"; "userStopTyping"; "error"; "connect"].

(* ===================================================================== *)
(** ** The [sendMessage] handler between its [await]s *)
(* ===================================================================== *)

(** The handler is an [async] function: at each [await] it gives the event
    loop back, and other events are handled before it goes on. What is left
    of a handler that is waiting: the socket it was called on and what it
    waits for. *)
Inductive Pending : Type :=
| AwaitingSave (socket : Socket) (message : MessageDoc)
    (* at [await message.save()] *)
| AwaitingReadBack (socket : Socket) (mid : string).
    (* at [await Message.findById(..).populate(..)] *)

Section Interleaving.

Context {DB : Type} {store : MessageStore DB}.

Variable jwt_verify : JSValue -> option Identity.

Notation "x <- m ;; k" := (bind m (fun x => k))
  (at level 100, m at next level, right associativity).
Notation "m ;; k" := (bind m (fun _ => k))
  (at level 100, right associativity).

(** [socket.emit(ev)] on a socket that may have disconnected since the
    handler was called: the packet of a closed socket is dropped. *)
Definition socket_emit_if_open (socket : Socket) (ev : Event) : M DB unit := fun st =>
  (Ok tt, st,
   [Emitted (SocketEmit (socket_id socket)) ev
      (filter (fun r => r = socket_id socket) (socket_id <$> sockets st))]).

(** The [catch] block; the handler is over. *)
Definition report_failure (socket : Socket) : M DB (option Pending) :=
  socket_emit_if_open socket (ErrorEvent "Failed to send message") ;;
  ret None.

(** The promise of [message.save()] settles: the store takes the record, or
    the promise rejects. *)
Definition save_settles (message : MessageDoc) : M DB unit := fun st =>
  match Message_save message (db st) with
  | Some d => (Ok tt, with_db d st, [])
  | None => (Throw StoreError, st, [])
  end.

(** The promise of the read-back settles. *)
Definition read_back_settles (mid : string) : M DB (option PopulatedMessage) := fun st =>
  match Message_findById_populate mid (db st) with
  | Some found => (Ok found, st, [])
  | None => (Throw StoreError, st, [])
  end.

(** The handler from its call to the first [await]: the record is built and
    [save] is called. *)
Definition sendMessage_dispatch (socket : Socket) (data : JSValue)
    (fresh_id : string) (now : Z) : M DB (option Pending) :=
  try_catch
    (content <- lift (get_property data "content") ;;
     let message := mkDoc fresh_id (id (user socket)) content now in
     tell (CallSave message) ;;
     ret (Some (AwaitingSave socket message)))
    (fun error => report_failure socket).

(** The handler from one [await] to the next, or to its end; it runs in the
    state of the server at that time. [io.emit] is in the last part. *)
Definition resume (p : Pending) : M DB (option Pending) :=
  match p with
  | AwaitingSave socket message =>
      try_catch
        (save_settles message ;;
         tell (CallFindById (doc_id message)) ;;
         ret (Some (AwaitingReadBack socket (doc_id message))))
        (fun error => report_failure socket)
  | AwaitingReadBack socket mid =>
      try_catch
        (populatedMessage <- read_back_settles mid ;;
         io_emit (NewMessage populatedMessage) ;;
         ret None)
        (fun error => report_failure socket)
  end.

(** The handler when nothing else happens between its parts. *)
Definition sendMessage_uninterrupted (socket : Socket) (data : JSValue)
    (fresh_id : string) (now : Z) : M DB unit :=
  p1 <- sendMessage_dispatch socket data fresh_id now ;;
  match p1 with
  | None => ret tt
  | Some p =>
      p2 <- resume p ;;
      match p2 with
      | None => ret tt
      | Some q => resume q ;; ret tt
      end
  end.

(** The server with the handlers that are waiting. *)
Record Interleaved : Type := mkInterleaved {
  server : State DB;
  awaiting : list Pending
}.

(** What the event loop takes up next: an input, or the promise of the
    [k]-th waiting handler settling. *)
Inductive Occurrence : Type :=
| Arrives (i : Input)
| Settles (k : nat).

Definition still_waiting (r : Result (option Pending)) : list Pending :=
  match r with
  | Ok (Some p) => [p]
  | _ => []
  end.

Definition occur (o : Occurrence) (a : Interleaved) : Interleaved * list Action :=
  match o with
  | Arrives (SendMessage sid data fresh_id now) =>
      match find_socket sid (sockets (server a)) with
      | Some socket =>
          let '(r, st, log) := sendMessage_dispatch socket data fresh_id now (server a) in
          (mkInterleaved st (awaiting a ++ still_waiting r), log)
      | None => (a, [])
      end
  | Arrives i =>
      let '(_, st, log) := step jwt_verify i (server a) in
      (mkInterleaved st (awaiting a), log)
  | Settles k =>
      match awaiting a !! k with
      | Some p =>
          let '(r, st, log) := resume p (server a) in
          (mkInterleaved st (delete k (awaiting a) ++ still_waiting r), log)
      | None => (a, [])
      end
  end.

Fixpoint occur_all (os : list Occurrence) (a : Interleaved) : Interleaved * list Action :=
  match os with
  | [] => (a, [])
  | o :: rest =>
      let '(a1, log1) := occur o a in
      let '(a2, log2) := occur_all rest a1 in
      (a2, log1 ++ log2)
  end.

Definition init_interleaved (d : DB) : Interleaved := mkInterleaved (init_state d) [].

End Interleaving.

Arguments Interleaved DB : clear implicits.


(** Alice and bob are connected and bob sends "hi"; while the record is
    being saved, a second socket of alice connects. *)
Definition hi_during_connect : list Occurrence :=
  [Arrives (Connect (JString "alice-token"));
   Arrives (Connect (JString "bob-token"));
   Arrives (SendMessage 1 hi_payload "m1" 5);
   Arrives (Connect (JString "alice-renamed-token"));
   Settles 0;
   Settles 0].

(** The server after the first [n] of these occurrences. *)
Definition hi_during_connect_at (n : nat) : Interleaved MemDB :=
  (occur_all demo_verify (take n hi_during_connect) (init_interleaved demo_db)).1.

Definition hi_message : PopulatedMessage :=
  mkPopulated "m1" (Some (mkUserRef "u2" "bob")) (JString "hi") 5.

(* ===================================================================== *)
(** ** Reading the emissions of the composer *)
(* ===================================================================== *)

(** The emissions with every [typing] followed by a [stopTyping] before the
    next [typing]; [open] tells whether a [typing] is not yet followed by a
    [stopTyping]. *)
Fixpoint alternates (open : bool) (out : list Chat.Emit) : bool :=
  match out with
  | [] => true
  | Chat.EmitTyping :: rest => if open then false else alternates true rest
  | Chat.EmitStopTyping :: rest => alternates false rest
  | Chat.EmitSendMessage _ :: rest => alternates open rest
  end.

(** Whether a [typing] is open at the end of the emissions. *)
Fixpoint open_after (open : bool) (out : list Chat.Emit) : bool :=
  match out with
  | [] => open
  | Chat.EmitTyping :: rest => open_after true rest
  | Chat.EmitStopTyping :: rest => open_after false rest
  | Chat.EmitSendMessage _ :: rest => open_after open rest
  end.

(** No two [typing] emissions without a [stopTyping] in between. *)
Definition typing_never_twice (out : list Chat.Emit) : Prop :=
  forall before between after_,
    out = before ++ Chat.EmitTyping :: between ++ Chat.EmitTyping :: after_ ->
    Chat.EmitStopTyping ∈ between.

(* ===================================================================== *)
(** * Properties *)
(* ===================================================================== *)

(** ** [Map] operations *)

Section MapFacts.

Context {V : Type}.
Implicit Types (m : JSMap V) (k : string) (v : V).

Lemma map_set_present k v m :
  k ∈ map_keys m -> map_keys (map_set k v m) = map_keys m.
Proof.
  unfold map_keys. induction m as [|[k' v'] rest IH]; csimpl; intros Hin.
  - by apply elem_of_nil in Hin.
  - destruct (String.eqb_spec k' k) as [->|Hne]; csimpl; [done|].
    apply elem_of_cons in Hin as [->|Hin]; [done|]. by rewrite IH.
Qed.

Lemma map_set_absent k v m :
  k ∉ map_keys m -> map_set k v m = m ++ [(k, v)].
Proof.
  unfold map_keys. induction m as [|[k' v'] rest IH]; csimpl; intros Hnin; [done|].
  apply not_elem_of_cons in Hnin as [Hne Hnin].
  destruct (String.eqb_spec k' k) as [->|_]; [done|]. by rewrite IH.
Qed.

Lemma map_set_keys_cases k v m :
  map_keys (map_set k v m) = map_keys m ∧ k ∈ map_keys m
  ∨ map_keys (map_set k v m) = map_keys m ++ [k] ∧ k ∉ map_keys m.
Proof.
  destruct (decide (k ∈ map_keys m)) as [Hin|Hnin].
  - left. split; [by apply map_set_present|done].
  - right. split; [|done]. rewrite map_set_absent by done.
    unfold map_keys. by rewrite fmap_app.
Qed.

Lemma map_set_elem_of_keys k v m : k ∈ map_keys (map_set k v m).
Proof.
  destruct (map_set_keys_cases k v m) as [[-> ?]|[-> ?]]; [done|].
  apply elem_of_app. right. apply list_elem_of_singleton. done.
Qed.

Lemma map_set_NoDup k v m :
  NoDup (map_keys m) -> NoDup (map_keys (map_set k v m)).
Proof.
  intros Hnd. destruct (map_set_keys_cases k v m) as [[-> ?]|[-> Hnin]]; [done|].
  apply NoDup_app. split; [done|]. split.
  - intros x Hx Hx'. apply list_elem_of_singleton in Hx'. by subst.
  - apply NoDup_singleton.
Qed.

Lemma map_get_set k v m : map_get k (map_set k v m) = Some v.
Proof.
  induction m as [|[k' v'] rest IH]; csimpl.
  - by rewrite String.eqb_refl.
  - destruct (String.eqb_spec k' k) as [->|Hne]; csimpl.
    + by rewrite String.eqb_refl.
    + by destruct (String.eqb_spec k' k).
Qed.

Lemma map_get_set_ne k k' v m :
  k' <> k -> map_get k' (map_set k v m) = map_get k' m.
Proof.
  intros Hne. induction m as [|[k0 v0] rest IH]; csimpl.
  - by destruct (String.eqb_spec k k').
  - destruct (String.eqb_spec k0 k) as [->|Hne0]; csimpl.
    + by destruct (String.eqb_spec k k').
    + by rewrite IH.
Qed.

Lemma filter_all {A : Type} (P : A -> Prop) `{forall x, Decision (P x)} (l : list A) :
  Forall P l -> filter P l = l.
Proof.
  induction 1 as [|x l Hx _ IH]; [done|]. by rewrite filter_cons_True, IH.
Qed.

Lemma filter_none {A : Type} (P : A -> Prop) `{forall x, Decision (P x)} (l : list A) :
  Forall (fun x => ~ P x) l -> filter P l = [].
Proof.
  induction 1 as [|x l Hx _ IH]; [done|]. by rewrite filter_cons_False, IH.
Qed.

(** With distinct keys, [delete] removes every binding of the key. *)
Lemma map_delete_keys k m :
  NoDup (map_keys m) ->
  map_keys (map_delete k m) = filter (fun k' => k' <> k) (map_keys m).
Proof.
  unfold map_keys. induction m as [|[k' v'] rest IH]; csimpl; intros Hnd; [done|].
  apply NoDup_cons in Hnd as [Hnin Hnd].
  destruct (String.eqb_spec k' k) as [->|Hne].
  - rewrite filter_cons_False by (intros Hc; by apply Hc).
    symmetry. apply filter_all. apply Forall_forall. intros x Hx ->. done.
  - rewrite filter_cons_True by done. csimpl. by rewrite IH.
Qed.

Lemma map_delete_NoDup k m :
  NoDup (map_keys m) -> NoDup (map_keys (map_delete k m)).
Proof.
  intros Hnd. rewrite map_delete_keys by done. by apply NoDup_filter.
Qed.

Lemma map_delete_not_elem_of k m :
  NoDup (map_keys m) -> k ∉ map_keys (map_delete k m).
Proof.
  intros Hnd. rewrite map_delete_keys by done.
  rewrite list_elem_of_filter. intros [Hc _]. by apply Hc.
Qed.

Lemma map_delete_absent k m : k ∉ map_keys m -> map_delete k m = m.
Proof.
  unfold map_keys. induction m as [|[k' v'] rest IH]; csimpl; intros Hnin; [done|].
  apply not_elem_of_cons in Hnin as [Hne Hnin].
  destruct (String.eqb_spec k' k) as [->|_]; [done|]. by rewrite IH.
Qed.

(** [set] on a key that stands at index [i] rewrites the binding at [i]. *)
Lemma map_set_at_index k v m i :
  NoDup (map_keys m) -> map_keys m !! i = Some k ->
  map_set k v m = <[i := (k, v)]> m.
Proof.
  unfold map_keys. revert i. induction m as [|[k' v'] rest IH]; intros i Hnd Hi.
  - csimpl in Hi. by rewrite lookup_nil in Hi.
  - csimpl in Hnd. apply NoDup_cons in Hnd as [Hnin Hnd]. csimpl.
    destruct i as [|i]; csimpl in Hi.
    + injection Hi as ->. simpl. by rewrite String.eqb_refl.
    + destruct (String.eqb_spec k' k) as [->|Hne].
      * exfalso. apply Hnin. by eapply list_elem_of_lookup_2.
      * csimpl. by rewrite (IH i).
Qed.

End MapFacts.

(** ** The registry under register / unregister *)

Lemma registry_after_snoc ops op :
  registry_after (ops ++ [op]) = apply_op (registry_after ops) op.
Proof. unfold registry_after. by rewrite fold_left_app. Qed.

Lemma registry_after_part001_snoc ops op :
  registry_after_part001 (ops ++ [op]) = apply_op_part001 (registry_after_part001 ops) op.
Proof. unfold registry_after_part001. by rewrite fold_left_app. Qed.

Lemma apply_op_NoDup m op :
  NoDup (map_keys m) -> NoDup (map_keys (apply_op m op)).
Proof.
  destruct op; simpl; [apply map_set_NoDup|apply map_delete_NoDup].
Qed.

Lemma apply_op_part001_NoDup m op :
  NoDup (map_keys m) -> NoDup (map_keys (apply_op_part001 m op)).
Proof.
  destruct op; simpl; [apply map_set_NoDup|apply map_delete_NoDup].
Qed.

Lemma registry_after_NoDup ops : NoDup (map_keys (registry_after ops)).
Proof.
  induction ops as [|op ops IH] using rev_ind.
  - apply NoDup_nil_2.
  - rewrite registry_after_snoc. by apply apply_op_NoDup.
Qed.

Lemma registry_after_part001_NoDup ops :
  NoDup (map_keys (registry_after_part001 ops)).
Proof.
  induction ops as [|op ops IH] using rev_ind.
  - apply NoDup_nil_2.
  - rewrite registry_after_part001_snoc. by apply apply_op_part001_NoDup.
Qed.

Lemma map_set_keyed k e m :
  entry_id e = Some k -> keyed m -> keyed (map_set k e m).
Proof.
  unfold keyed. intros He. induction 1 as [|[k' e'] rest Hk Hrest IH]; simpl.
  - by apply Forall_singleton.
  - destruct (String.eqb_spec k' k) as [->|_]; constructor; done.
Qed.

Lemma map_delete_keyed k m : keyed m -> keyed (map_delete k m).
Proof.
  unfold keyed. induction 1 as [|[k' e'] rest Hk Hrest IH]; simpl; [done|].
  destruct (String.eqb_spec k' k); [done|]. by constructor.
Qed.

Lemma apply_op_keyed m op : keyed m -> keyed (apply_op m op).
Proof.
  destruct op; simpl; [by apply map_set_keyed|apply map_delete_keyed].
Qed.

Lemma registry_after_keyed ops : keyed (registry_after ops).
Proof.
  induction ops as [|op ops IH] using rev_ind.
  - apply Forall_nil_2.
  - rewrite registry_after_snoc. by apply apply_op_keyed.
Qed.

(** In a registry whose records carry their key, counting the records of an
    id in the snapshot is counting the key. *)
Lemma keyed_roster_count uid m :
  keyed m ->
  roster_count uid (map_values m) = length (filter (fun k => k = uid) (map_keys m)).
Proof.
  unfold keyed, roster_count, map_values, map_keys.
  induction 1 as [|[k e] rest Hk _ IH]; csimpl; [done|]. simpl in Hk.
  destruct (decide (k = uid)) as [->|Hne].
  - rewrite !filter_cons_True by done. simpl. by rewrite IH.
  - rewrite !filter_cons_False by (rewrite ?Hk; congruence). done.
Qed.

Lemma NoDup_count_le (uid : string) (l : list string) :
  NoDup l -> length (filter (fun k => k = uid) l) <= 1.
Proof.
  induction 1 as [|k l Hnin _ IH]; [simpl; lia|].
  destruct (decide (k = uid)) as [->|Hne].
  - rewrite filter_cons_True by done. simpl.
    rewrite filter_none; [simpl; lia|].
    apply Forall_forall. intros x Hx ->. done.
  - rewrite filter_cons_False by done. done.
Qed.

Lemma NoDup_count_present (uid : string) (l : list string) :
  NoDup l -> uid ∈ l -> length (filter (fun k => k = uid) l) = 1.
Proof.
  intros Hnd Hin. pose proof (NoDup_count_le uid l Hnd) as Hle.
  destruct (filter (fun k => k = uid) l) as [|x rest] eqn:Hf; [|simpl in *; lia].
  exfalso. by eapply (filter_nil_not_elem_of _ l uid Hf).
Qed.

(** [C1] For every sequence of register / unregister operations the registry
    holds at most one entry per identity id (its keys are pairwise distinct
    and no id occurs twice in the snapshot); registering an id, present or
    not, leaves the keys distinct, makes the snapshot hold exactly one record
    of that id, namely the one of the registering connection, and does not
    lengthen the registry when the id was present. *)
Theorem C1_one_entry_per_identity (ops : list RegistryOp) (socket : Socket) :
  let m := registry_after ops in
  let m' := register socket m in
  let uid := id (user socket) in
  NoDup (map_keys m)
  /\ (forall u, roster_count u (map_values m) <= 1)
  /\ NoDup (map_keys m')
  /\ roster_count uid (map_values m') = 1
  /\ map_get uid m' = Some (mkEntry (Some uid) (username (user socket)) (socket_id socket))
  /\ (uid ∈ map_keys m -> length m' = length m).
Proof.
  intros m m' uid.
  pose proof (registry_after_NoDup ops) as Hnd.
  pose proof (registry_after_keyed ops) as Hk.
  pose proof (registry_after_NoDup (ops ++ [Register socket])) as Hnd'.
  pose proof (registry_after_keyed (ops ++ [Register socket])) as Hk'.
  rewrite registry_after_snoc in Hnd', Hk'. simpl in Hnd', Hk'.
  fold m in Hnd, Hk, Hnd', Hk'. fold m' in Hnd', Hk'.
  repeat split.
  - exact Hnd.
  - intros u. rewrite keyed_roster_count by done. by apply NoDup_count_le.
  - exact Hnd'.
  - rewrite keyed_roster_count by done. apply NoDup_count_present; [done|].
    apply map_set_elem_of_keys.
  - apply map_get_set.
  - intros Hin. pose proof (map_set_present uid
      (mkEntry (Some uid) (username (user socket)) (socket_id socket)) m Hin) as Hkeys.
    apply (f_equal length) in Hkeys. unfold map_keys in Hkeys.
    by rewrite !length_fmap in Hkeys.
Qed.

(** ** Insertion order *)

Lemma inserted_at_snoc_register ops socket k :
  inserted_at (ops ++ [Register socket]) k =
    if String.eqb (id (user socket)) k then
      match inserted_at ops k with
      | Some t => Some t
      | None => Some (length ops)
      end
    else inserted_at ops k.
Proof.
  unfold inserted_at. rewrite rev_app_distr. simpl. by rewrite length_rev.
Qed.

Lemma inserted_at_snoc_unregister ops uid k :
  inserted_at (ops ++ [Unregister uid]) k =
    if String.eqb uid k then None else inserted_at ops k.
Proof. unfold inserted_at. by rewrite rev_app_distr. Qed.

Lemma StronglySorted_filter_impl {A : Type} (R R' : relation A)
    (P : A -> Prop) `{forall x, Decision (P x)} (l : list A) :
  StronglySorted R l ->
  (forall x y, x ∈ l -> y ∈ l -> P x -> P y -> R x y -> R' x y) ->
  StronglySorted R' (filter P l).
Proof.
  induction 1 as [|x l Hl IH Hx]; intros Himpl; [constructor|].
  assert (StronglySorted R' (filter P l)) as Hrec.
  { apply IH. intros a b Ha Hb. apply Himpl; by apply list_elem_of_further. }
  destruct (decide (P x)) as [HPx|HPx].
  - rewrite filter_cons_True by done. constructor; [done|].
    apply Forall_forall. intros y Hy. apply list_elem_of_filter in Hy as [HPy Hy].
    rewrite Forall_forall in Hx.
    apply Himpl; auto using list_elem_of_here, list_elem_of_further.
  - by rewrite filter_cons_False.
Qed.

Lemma insertion_ordered_register ops m socket :
  NoDup (map_keys m) -> insertion_ordered ops m ->
  insertion_ordered (ops ++ [Register socket]) (register socket m).
Proof.
  intros Hnd (Hiff & Hlt & Hsorted). unfold register, insertion_ordered.
  set (k0 := id (user socket)). set (e := mkEntry _ _ _).
  assert (forall k, k <> k0 ->
    inserted_at (ops ++ [Register socket]) k = inserted_at ops k) as Hother.
  { intros k Hne. rewrite inserted_at_snoc_register. fold k0.
    by destruct (String.eqb_spec k0 k). }
  destruct (map_set_keys_cases k0 e m) as [[Hkeys Hin]|[Hkeys Hnin]]; rewrite Hkeys.
  - assert (forall k, inserted_at (ops ++ [Register socket]) k = inserted_at ops k)
      as Hsame.
    { intros k. destruct (decide (k = k0)) as [->|Hne]; [|by apply Hother].
      rewrite inserted_at_snoc_register. fold k0. rewrite String.eqb_refl.
      apply Hiff in Hin as [t ->]. done. }
    split; [|split].
    + intros k. rewrite Hsame. apply Hiff.
    + intros k t. rewrite Hsame, length_app. intros Ht%Hlt. simpl. lia.
    + rewrite <- (filter_all (fun _ => True) (map_keys m)) by by apply Forall_forall.
      eapply StronglySorted_filter_impl; [exact Hsorted|].
      intros x y _ _ _ _ (t1 & t2 & H1 & H2 & Hlt12).
      exists t1, t2. by rewrite !Hsame.
  - assert (inserted_at ops k0 = None) as Hnone.
    { destruct (inserted_at ops k0) eqn:E; [|done].
      exfalso. apply Hnin, Hiff. by eexists. }
    assert (inserted_at (ops ++ [Register socket]) k0 = Some (length ops)) as Hnew.
    { rewrite inserted_at_snoc_register. fold k0. by rewrite String.eqb_refl, Hnone. }
    split; [|split].
    + intros k. rewrite elem_of_app, list_elem_of_singleton.
      destruct (decide (k = k0)) as [->|Hne].
      * rewrite Hnew. split; [by eexists|by right].
      * rewrite Hother by done. rewrite <- Hiff. tauto.
    + intros k t. rewrite length_app. simpl.
      destruct (decide (k = k0)) as [->|Hne].
      * rewrite Hnew. intros [= <-]. lia.
      * rewrite Hother by done. intros Ht%Hlt. lia.
    + apply StronglySorted_app. split; [|split].
      * intros x1 x2 Hx1 ->%list_elem_of_singleton.
        pose proof Hx1 as [t1 Ht1]%Hiff.
        exists t1, (length ops). rewrite Hnew.
        rewrite Hother by (intros ->; done). split; [done|]. split; [done|].
        by eapply Hlt.
      * rewrite <- (filter_all (fun _ => True) (map_keys m)) by by apply Forall_forall.
        eapply StronglySorted_filter_impl; [exact Hsorted|].
        intros x y Hx Hy _ _ (t1 & t2 & H1 & H2 & Hlt12).
        exists t1, t2. rewrite !Hother by (intros ->; done). done.
      * repeat constructor.
Qed.

Lemma insertion_ordered_unregister ops m uid :
  NoDup (map_keys m) -> insertion_ordered ops m ->
  insertion_ordered (ops ++ [Unregister uid]) (unregister uid m).
Proof.
  intros Hnd (Hiff & Hlt & Hsorted). unfold unregister, insertion_ordered.
  rewrite map_delete_keys by done.
  assert (forall k, k <> uid ->
    inserted_at (ops ++ [Unregister uid]) k = inserted_at ops k) as Hother.
  { intros k Hne. rewrite inserted_at_snoc_unregister.
    by destruct (String.eqb_spec uid k). }
  assert (inserted_at (ops ++ [Unregister uid]) uid = None) as Hgone.
  { by rewrite inserted_at_snoc_unregister, String.eqb_refl. }
  split; [|split].
  - intros k. rewrite list_elem_of_filter.
    destruct (decide (k = uid)) as [->|Hne].
    + rewrite Hgone. split; [by intros [? _]|by intros [? ?]].
    + rewrite Hother by done. rewrite <- Hiff. tauto.
  - intros k t. rewrite length_app. simpl.
    destruct (decide (k = uid)) as [->|Hne].
    + by rewrite Hgone.
    + rewrite Hother by done. intros Ht%Hlt. lia.
  - eapply StronglySorted_filter_impl; [exact Hsorted|].
    intros x y _ _ Hx Hy (t1 & t2 & H1 & H2 & Hlt12).
    exists t1, t2. by rewrite !Hother.
Qed.

Lemma registry_after_insertion_ordered ops :
  insertion_ordered ops (registry_after ops).
Proof.
  induction ops as [|op ops IH] using rev_ind.
  - split; [|split].
    + intros k. split; [by intros ?%elem_of_nil|by intros [? ?]].
    + by intros k t.
    + constructor.
  - rewrite registry_after_snoc. pose proof (registry_after_NoDup ops).
    destruct op; simpl;
      [by apply insertion_ordered_register|by apply insertion_ordered_unregister].
Qed.

(** The records of the registry are the records of registered sockets. *)
Lemma map_set_values {V : Type} k (v : V) (m : JSMap V) x :
  x ∈ map_values (map_set k v m) -> x = v \/ x ∈ map_values m.
Proof.
  unfold map_values. induction m as [|[k' v'] rest IH]; csimpl.
  - intros ->%list_elem_of_singleton. by left.
  - destruct (String.eqb_spec k' k) as [->|_]; csimpl.
    + intros [->|Hx]%elem_of_cons; [by left|right; by right].
    + intros [->|Hx]%elem_of_cons; [right; by left|].
      destruct (IH Hx); [by left|right; by right].
Qed.

Lemma map_delete_values {V : Type} k (m : JSMap V) x :
  x ∈ map_values (map_delete k m) -> x ∈ map_values m.
Proof.
  unfold map_values. induction m as [|[k' v'] rest IH]; csimpl; [done|].
  destruct (String.eqb_spec k' k) as [->|_]; csimpl.
  - by right.
  - intros [->|Hx]%elem_of_cons; [by left|right; by apply IH].
Qed.

Lemma registry_after_entries ops :
  Forall (fun e => exists socket, Register socket ∈ ops
            /\ e = mkEntry (Some (id (user socket))) (username (user socket))
                     (socket_id socket))
    (map_values (registry_after ops)).
Proof.
  induction ops as [|op ops IH] using rev_ind; [constructor|].
  rewrite registry_after_snoc. rewrite Forall_forall in IH. apply Forall_forall.
  intros e He. destruct op as [socket|uid]; simpl in He.
  - apply map_set_values in He as [->|He].
    + exists socket. split; [|done]. apply elem_of_app. right. by left.
    + destruct (IH e He) as (s & Hs & ->). exists s. split; [|done].
      apply elem_of_app. by left.
  - apply map_delete_values in He.
    destruct (IH e He) as (s & Hs & ->). exists s. split; [|done].
    apply elem_of_app. by left.
Qed.

Lemma keyed_Forall2 m :
  keyed m -> Forall2 (fun k e => entry_id e = Some k) (map_keys m) (map_values m).
Proof.
  unfold keyed, map_keys, map_values. intros Hk.
  apply Forall2_fmap. by apply Forall_Forall2_diag.
Qed.

(** [C10] Registering an identity id that stands at position [i] of the
    registry keeps the sequence of ids, so the id keeps position [i] and its
    insertion time; the record at [i] becomes the one of the new connection
    (new username, new socket id) and the other records are unchanged. *)
Theorem C10_reregistration_keeps_position (ops : list RegistryOp) (socket : Socket) (i : nat) :
  map_keys (registry_after ops) !! i = Some (id (user socket)) ->
  let m := registry_after ops in
  let m' := register socket m in
  let entry := mkEntry (Some (id (user socket))) (username (user socket)) (socket_id socket) in
  map_keys m' = map_keys m
  /\ map_values m' = <[i := entry]> (map_values m)
  /\ map_values m' !! i = Some entry
  /\ (forall j, j <> i -> map_values m' !! j = map_values m !! j)
  /\ inserted_at (ops ++ [Register socket]) (id (user socket))
     = inserted_at ops (id (user socket)).
Proof.
  intros Hi m m' entry.
  pose proof (registry_after_NoDup ops) as Hnd. fold m in Hnd, Hi.
  assert (map_values m' = <[i := entry]> (map_values m)) as Hvals.
  { unfold m', register. fold entry. rewrite (map_set_at_index _ _ _ i Hnd Hi).
    unfold map_values. by rewrite list_fmap_insert. }
  assert (i < length (map_values m)) as Hlen.
  { unfold map_values. rewrite length_fmap.
    apply lookup_lt_Some in Hi. unfold map_keys in Hi. by rewrite length_fmap in Hi. }
  split; [|split; [|split; [|split]]].
  - apply map_set_present. by eapply list_elem_of_lookup_2.
  - exact Hvals.
  - rewrite Hvals. by apply list_lookup_insert_eq.
  - intros j Hj. rewrite Hvals. by apply list_lookup_insert_ne.
  - rewrite inserted_at_snoc_register, String.eqb_refl.
    destruct (registry_after_insertion_ordered ops) as (Hiff & _ & _).
    assert (is_Some (inserted_at ops (id (user socket)))) as [t ->]; [|done].
    apply Hiff. by eapply list_elem_of_lookup_2.
Qed.

(** ** The handlers *)

Section ServerFacts.

Context {DB : Type} {store : MessageStore DB}.
Variable jwt_verify : JSValue -> option Identity.
Implicit Types (st : State DB) (socket : Socket).

(** The four ways through the [sendMessage] handler. *)
Lemma on_sendMessage_no_payload socket data fresh_id now st e :
  get_property data "content" = Throw e ->
  on_sendMessage socket data fresh_id now st = (Ok tt, st, [failed_to_send socket]).
Proof. intros Hc. unfold on_sendMessage, try_catch, bind, lift. by rewrite Hc. Qed.

Lemma on_sendMessage_save_rejected socket data fresh_id now st c :
  get_property data "content" = Ok c ->
  Message_save (mkDoc fresh_id (id (user socket)) c now) (db st) = None ->
  on_sendMessage socket data fresh_id now st =
    (Ok tt, st,
     [CallSave (mkDoc fresh_id (id (user socket)) c now); failed_to_send socket]).
Proof.
  intros Hc Hs. unfold on_sendMessage, try_catch, bind, lift, message_save.
  rewrite Hc. simpl. by rewrite Hs.
Qed.

Lemma on_sendMessage_read_back_rejected socket data fresh_id now st c d1 :
  get_property data "content" = Ok c ->
  Message_save (mkDoc fresh_id (id (user socket)) c now) (db st) = Some d1 ->
  Message_findById_populate fresh_id d1 = None ->
  on_sendMessage socket data fresh_id now st =
    (Ok tt, with_db d1 st,
     [CallSave (mkDoc fresh_id (id (user socket)) c now); CallFindById fresh_id;
      failed_to_send socket]).
Proof.
  intros Hc Hs Hf.
  unfold on_sendMessage, try_catch, bind, lift, message_save, message_findById_populate.
  rewrite Hc. simpl. rewrite Hs. simpl. by rewrite Hf.
Qed.

Lemma on_sendMessage_persisted socket data fresh_id now st c d1 p :
  get_property data "content" = Ok c ->
  Message_save (mkDoc fresh_id (id (user socket)) c now) (db st) = Some d1 ->
  Message_findById_populate fresh_id d1 = Some p ->
  on_sendMessage socket data fresh_id now st =
    (Ok tt, with_db d1 st,
     [CallSave (mkDoc fresh_id (id (user socket)) c now); CallFindById fresh_id;
      Emitted IoEmit (NewMessage p) (socket_id <$> sockets st)]).
Proof.
  intros Hc Hs Hf.
  unfold on_sendMessage, try_catch, bind, lift, message_save, message_findById_populate.
  rewrite Hc. simpl. rewrite Hs. simpl. by rewrite Hf.
Qed.

(** No exception escapes the handler, whatever the payload and the store. *)
Lemma on_sendMessage_never_throws socket data fresh_id now st :
  (on_sendMessage socket data fresh_id now st).1.1 = Ok tt.
Proof.
  destruct (get_property data "content") as [c|e] eqn:Hc.
  - destruct (Message_save (mkDoc fresh_id (id (user socket)) c now) (db st))
      as [d1|] eqn:Hs.
    + destruct (Message_findById_populate fresh_id d1) as [p|] eqn:Hf.
      * by erewrite on_sendMessage_persisted.
      * by erewrite on_sendMessage_read_back_rejected.
    + by erewrite on_sendMessage_save_rejected.
  - by erewrite on_sendMessage_no_payload.
Qed.

(** The handler does not touch the registry or the set of sockets. *)
Lemma on_sendMessage_state socket data fresh_id now st :
  let st' := (on_sendMessage socket data fresh_id now st).1.2 in
  activeUsers st' = activeUsers st /\ sockets st' = sockets st
  /\ next_socket_id st' = next_socket_id st.
Proof.
  destruct (get_property data "content") as [c|e] eqn:Hc.
  - destruct (Message_save (mkDoc fresh_id (id (user socket)) c now) (db st))
      as [d1|] eqn:Hs.
    + destruct (Message_findById_populate fresh_id d1) as [p|] eqn:Hf.
      * by erewrite on_sendMessage_persisted.
      * by erewrite on_sendMessage_read_back_rejected.
    + by erewrite on_sendMessage_save_rejected.
  - by erewrite on_sendMessage_no_payload.
Qed.

(** The handler checks nothing about the content: whenever the payload lets
    [data.content] be read, exactly one record, carrying that content, is
    handed to [save]. *)
Lemma on_sendMessage_always_saves socket data fresh_id now st c :
  get_property data "content" = Ok c ->
  saved_docs (on_sendMessage socket data fresh_id now st).2
    = [mkDoc fresh_id (id (user socket)) c now].
Proof.
  intros Hc.
  destruct (Message_save (mkDoc fresh_id (id (user socket)) c now) (db st))
    as [d1|] eqn:Hs.
  - destruct (Message_findById_populate fresh_id d1) as [p|] eqn:Hf.
    + by erewrite on_sendMessage_persisted.
    + by erewrite on_sendMessage_read_back_rejected.
  - by erewrite on_sendMessage_save_rejected.
Qed.



(** [C6] Two submissions from the same socket whose payloads agree on every
    field but [sender] run identically: same result, same state, same log.
    Every record handed to [save] has the identity of the socket as its
    sender, and so has every broadcast message whose sender resolves,
    provided the store reads back what it saved. *)
Theorem C6_sender_is_authenticated_identity socket data1 data2 fresh_id now st :
  (forall field, field <> "sender" ->
     get_property data1 field = get_property data2 field) ->
  reads_back_sender store ->
  on_sendMessage socket data1 fresh_id now st
    = on_sendMessage socket data2 fresh_id now st
  /\ (forall doc, doc ∈ saved_docs (on_sendMessage socket data1 fresh_id now st).2 ->
       doc_sender doc = id (user socket))
  /\ (forall p to r,
       (Some p, to) ∈ new_message_emissions (on_sendMessage socket data1 fresh_id now st).2 ->
       pm_sender p = Some r -> ref_id r = id (user socket)).
Proof.
  intros Hagree Hstore.
  assert (get_property data1 "content" = get_property data2 "content") as Hc
    by by apply Hagree.
  split; [|split].
  - unfold on_sendMessage. by rewrite Hc.
  - intros doc. destruct (get_property data1 "content") as [c|e] eqn:Hc1.
    + destruct (Message_save (mkDoc fresh_id (id (user socket)) c now) (db st))
        as [d1|] eqn:Hs.
      * destruct (Message_findById_populate fresh_id d1) as [p|] eqn:Hf.
        -- erewrite on_sendMessage_persisted by done. simpl.
           by intros ->%list_elem_of_singleton.
        -- erewrite on_sendMessage_read_back_rejected by done. simpl.
           by intros ->%list_elem_of_singleton.
      * erewrite on_sendMessage_save_rejected by done. simpl.
        by intros ->%list_elem_of_singleton.
    + erewrite on_sendMessage_no_payload by done. simpl. by intros ?%elem_of_nil.
  - intros p to r. destruct (get_property data1 "content") as [c|e] eqn:Hc1.
    + destruct (Message_save (mkDoc fresh_id (id (user socket)) c now) (db st))
        as [d1|] eqn:Hs.
      * destruct (Message_findById_populate fresh_id d1) as [p'|] eqn:Hf.
        -- erewrite on_sendMessage_persisted by done. simpl.
           intros Heq%list_elem_of_singleton Hr. injection Heq as <- ->.
           by apply (Hstore _ _ _ _ _ Hs Hf Hr).
        -- erewrite on_sendMessage_read_back_rejected by done. simpl.
           by intros ?%elem_of_nil.
      * erewrite on_sendMessage_save_rejected by done. simpl. by intros ?%elem_of_nil.
    + erewrite on_sendMessage_no_payload by done. simpl. by intros ?%elem_of_nil.
Qed.

End ServerFacts.

(** ** The server as a transition system *)

Section RunFacts.

Context {DB : Type} {store : MessageStore DB}.
Variable jwt_verify : JSValue -> option Identity.
Implicit Types (st : State DB) (socket : Socket) (inputs : list Input).

Local Abbreviation step := (step jwt_verify).
Local Abbreviation run := (run jwt_verify).
Local Abbreviation state_after := (state_after jwt_verify).
Local Abbreviation history := (history jwt_verify).
Local Abbreviation ops_of_step := (ops_of_step jwt_verify).

Lemma step_connect_accepted token decoded st :
  auth_middleware jwt_verify token = inl decoded ->
  let socket := mkSocket (next_socket_id st) decoded in
  let roster := map_values (register socket (activeUsers st)) in
  step (Connect token) st =
    (Ok tt,
     mkState (register socket (activeUsers st)) (sockets st ++ [socket])
       (S (next_socket_id st)) (db st),
     [Emitted (SocketEmit (socket_id socket)) (ActiveUsers roster) [socket_id socket];
      Emitted (SocketBroadcastEmit (socket_id socket)) (ActiveUsers roster)
        (filter (fun r => r <> socket_id socket)
           (socket_id <$> (sockets st ++ [socket])));
      Join (socket_id socket) (id decoded)]).
Proof. intros Ha. unfold step. by rewrite Ha. Qed.

Lemma step_connect_rejected token msg st :
  auth_middleware jwt_verify token = inr msg ->
  step (Connect token) st = (Ok tt, st, [ConnectError msg]).
Proof. intros Ha. unfold step. by rewrite Ha. Qed.

Lemma step_disconnect sid socket st :
  find_socket sid (sockets st) = Some socket ->
  let remaining := filter (fun s => socket_id s <> sid) (sockets st) in
  let roster := map_values (unregister (id (user socket)) (activeUsers st)) in
  step (Disconnect sid) st =
    (Ok tt,
     mkState (unregister (id (user socket)) (activeUsers st)) remaining
       (next_socket_id st) (db st),
     [Emitted IoEmit (ActiveUsers roster) (socket_id <$> remaining)]).
Proof. intros Hf. unfold step, with_socket. by rewrite Hf. Qed.

Lemma step_never_throws i st : (step i st).1.1 = Ok tt.
Proof.
  destruct i as [token|sid data fresh_id now|sid|sid|sid]; simpl.
  - by destruct (auth_middleware jwt_verify token).
  - unfold with_socket. destruct (find_socket sid (sockets st)); [|done].
    apply on_sendMessage_never_throws.
  - unfold with_socket. by destruct (find_socket sid (sockets st)).
  - unfold with_socket. by destruct (find_socket sid (sockets st)).
  - unfold with_socket. by destruct (find_socket sid (sockets st)).
Qed.

(** A step changes the registry by the operation it triggers. *)
Lemma step_registry i st :
  activeUsers (step i st).1.2 = fold_left apply_op (ops_of_step i st) (activeUsers st).
Proof.
  destruct i as [token|sid data fresh_id now|sid|sid|sid]; simpl.
  - by destruct (auth_middleware jwt_verify token).
  - unfold with_socket. destruct (find_socket sid (sockets st)); [|done].
    apply on_sendMessage_state.
  - unfold with_socket. by destruct (find_socket sid (sockets st)).
  - unfold with_socket. by destruct (find_socket sid (sockets st)).
  - unfold with_socket. by destruct (find_socket sid (sockets st)).
Qed.

(** The payloads a step emits are snapshots of the registry it leaves. *)
Lemma step_rosters i st :
  Forall (fun roster => roster = map_values (activeUsers (step i st).1.2))
    (emitted_rosters (step i st).2).
Proof.
  destruct i as [token|sid data fresh_id now|sid|sid|sid]; simpl.
  - destruct (auth_middleware jwt_verify token); simpl; repeat constructor.
  - unfold with_socket. destruct (find_socket sid (sockets st)) as [socket|]; [|constructor].
    destruct (get_property data "content") as [c|e] eqn:Hc.
    + destruct (Message_save (mkDoc fresh_id (id (user socket)) c now) (db st))
        as [d1|] eqn:Hs.
      * destruct (Message_findById_populate fresh_id d1) as [p|] eqn:Hf.
        -- erewrite on_sendMessage_persisted by done. constructor.
        -- erewrite on_sendMessage_read_back_rejected by done. constructor.
      * erewrite on_sendMessage_save_rejected by done. constructor.
    + erewrite on_sendMessage_no_payload by done. constructor.
  - unfold with_socket. destruct (find_socket sid (sockets st)); constructor.
  - unfold with_socket. destruct (find_socket sid (sockets st)); constructor.
  - unfold with_socket. destruct (find_socket sid (sockets st)); repeat constructor.
Qed.

Lemma run_cons i inputs st :
  run (i :: inputs) st =
    let '(r, st2, t2) := run inputs (step i st).1.2 in (r, st2, (step i st).2 ++ t2).
Proof.
  simpl. unfold bind. pose proof (step_never_throws i st) as Hok.
  destruct (step i st) as [[r st1] t1]. simpl in *. by rewrite Hok.
Qed.

Lemma state_after_cons i inputs st :
  state_after (i :: inputs) st = state_after inputs (step i st).1.2.
Proof.
  change (state_after (i :: inputs) st) with (run (i :: inputs) st).1.2.
  change (state_after inputs (step i st).1.2) with (run inputs (step i st).1.2).1.2.
  rewrite run_cons.
  by destruct (run inputs (step i st).1.2) as [[r st2] t2].
Qed.

Lemma state_after_snoc inputs i st :
  state_after (inputs ++ [i]) st = (step i (state_after inputs st)).1.2.
Proof.
  revert st. induction inputs as [|j inputs IH]; intros st.
  - simpl. rewrite state_after_cons. done.
  - simpl. rewrite !state_after_cons. apply IH.
Qed.

Lemma history_snoc inputs i st :
  history (inputs ++ [i]) st = history inputs st ++ ops_of_step i (state_after inputs st).
Proof.
  revert st. induction inputs as [|j inputs IH]; intros st.
  - simpl. by rewrite app_nil_r.
  - simpl. rewrite IH, state_after_cons. by rewrite app_assoc.
Qed.

Lemma run_never_throws inputs st : (run inputs st).1.1 = Ok tt.
Proof.
  revert st. induction inputs as [|i inputs IH]; intros st; [done|].
  rewrite run_cons. specialize (IH (step i st).1.2).
  by destruct (run inputs (step i st).1.2) as [[r st2] t2].
Qed.

(** The registry of a reachable state is the registry after the history of
    the run. *)
Lemma run_registry inputs d :
  activeUsers (state_after inputs (init_state d))
    = registry_after (history inputs (init_state d)).
Proof.
  induction inputs as [|i inputs IH] using rev_ind; [done|].
  rewrite state_after_snoc, history_snoc, step_registry, IH.
  unfold registry_after. by rewrite fold_left_app.
Qed.

Lemma step_fresh_counter i st : fresh_counter st -> fresh_counter (step i st).1.2.
Proof.
  unfold fresh_counter. intros Hfresh.
  destruct i as [token|sid data fresh_id now|sid|sid|sid]; simpl.
  - destruct (auth_middleware jwt_verify token); simpl; [|done].
    apply Forall_app. split.
    + eapply Forall_impl; [exact Hfresh|]. simpl. lia.
    + repeat constructor.
  - unfold with_socket. destruct (find_socket sid (sockets st)) as [socket|]; [|done].
    destruct (on_sendMessage_state socket data fresh_id now st) as (_ & -> & ->). done.
  - unfold with_socket. by destruct (find_socket sid (sockets st)).
  - unfold with_socket. by destruct (find_socket sid (sockets st)).
  - unfold with_socket. destruct (find_socket sid (sockets st)); [|done]. simpl.
    rewrite Forall_forall in Hfresh. apply Forall_forall.
    intros x [_ Hx]%list_elem_of_filter. by apply Hfresh.
Qed.

Lemma run_fresh_counter inputs d : fresh_counter (state_after inputs (init_state d)).
Proof.
  induction inputs as [|i inputs IH] using rev_ind; [constructor|].
  rewrite state_after_snoc. by apply step_fresh_counter.
Qed.

(** Admission happens only after the token was found present and verified. *)
Lemma admission_requires_verification token decoded :
  auth_middleware jwt_verify token = inl decoded ->
  truthy token = true /\ jwt_verify token = Some decoded.
Proof.
  unfold auth_middleware. destruct (truthy token); simpl; [|done].
  destruct (jwt_verify token); [|done]. by intros [= ->].
Qed.

(** [C5] A handshake whose token is missing (falsy), or whose token
    [jwt.verify] refuses, is rejected by the middleware, with the
    missing-token message in the first case and the invalid-token message in
    the second; the connection handler does not run: the server state is
    unchanged (no socket, no registry entry, no registry operation), and any
    later run proceeds as if the attempt had not happened. *)
Theorem C5_failed_verification_not_admitted token st :
  truthy token = false \/ jwt_verify token = None ->
  let msg := if truthy token then "Authentication error: Invalid token"
             else "Authentication error: No token provided" in
  auth_middleware jwt_verify token = inr msg
  /\ step (Connect token) st = (Ok tt, st, [ConnectError msg])
  /\ ops_of_step (Connect token) st = []
  /\ (forall inputs, state_after (Connect token :: inputs) st = state_after inputs st).
Proof.
  intros Hfail msg.
  assert (auth_middleware jwt_verify token = inr msg) as Ha.
  { unfold auth_middleware, msg. destruct (truthy token) eqn:Ht; simpl; [|done].
    destruct Hfail as [?|Hv]; [done|]. by rewrite Hv. }
  split; [done|]. split; [by apply step_connect_rejected|]. split.
  - simpl. by rewrite Ha.
  - intros inputs. rewrite state_after_cons.
    by rewrite (step_connect_rejected _ _ _ Ha).
Qed.

(** [C7] In every reachable state, an admitted connection is registered and
    then announced by exactly two [activeUsers] emissions carrying the
    registry as it stands after the insert: a [socket.emit] delivered to the
    new socket alone, then a [socket.broadcast.emit] delivered to exactly the
    sockets that were connected before, none of which is the new one. *)
Theorem C7_admission_announces_roster d inputs token decoded :
  auth_middleware jwt_verify token = inl decoded ->
  let st := state_after inputs (init_state d) in
  let socket := mkSocket (next_socket_id st) decoded in
  let roster := map_values (register socket (activeUsers st)) in
  (step (Connect token) st).2 =
    [Emitted (SocketEmit (socket_id socket)) (ActiveUsers roster) [socket_id socket];
     Emitted (SocketBroadcastEmit (socket_id socket)) (ActiveUsers roster)
       (socket_id <$> sockets st);
     Join (socket_id socket) (id decoded)]
  /\ emitted_rosters (step (Connect token) st).2 = [roster; roster]
  /\ activeUsers (step (Connect token) st).1.2 = register socket (activeUsers st)
  /\ sockets (step (Connect token) st).1.2 = sockets st ++ [socket]
  /\ socket_id socket ∉ (socket_id <$> sockets st).
Proof.
  intros Ha st socket roster.
  pose proof (run_fresh_counter inputs d) as Hfresh.
  fold st in Hfresh. unfold fresh_counter in Hfresh. rewrite Forall_forall in Hfresh.
  assert (socket_id socket ∉ (socket_id <$> sockets st)) as Hnew.
  { intros (s & Heq & Hs)%list_elem_of_fmap. apply Hfresh in Hs. simpl in Heq. lia. }
  rewrite (step_connect_accepted _ _ st Ha). fold socket. fold roster. simpl.
  repeat split; [|done].
  rewrite fmap_app, filter_app. csimpl.
  rewrite filter_all.
  - rewrite filter_cons_False by (intros Hc; by apply Hc). by rewrite app_nil_r.
  - apply Forall_forall. intros r Hr ->. done.
Qed.

(** In every reachable state and for every input, each [activeUsers]
    payload the step emits is the sequence of the values of the registry the
    step leaves. That registry is the registry after the history of register
    and unregister operations; its records carry the id they are stored under
    and the username and socket id of a registered connection; its ids are
    pairwise distinct and stand in the order in which their current entries
    were inserted. *)
Lemma roster_payload_is_registry_snapshot d inputs i :
  let st := state_after inputs (init_state d) in
  let ops := history (inputs ++ [i]) (init_state d) in
  let registry := activeUsers (step i st).1.2 in
  registry = registry_after ops
  /\ Forall (fun roster => roster = map_values registry) (emitted_rosters (step i st).2)
  /\ Forall2 (fun k e => entry_id e = Some k) (map_keys registry) (map_values registry)
  /\ Forall (fun e => exists socket, Register socket ∈ ops
               /\ e = mkEntry (Some (id (user socket))) (username (user socket))
                        (socket_id socket))
       (map_values registry)
  /\ NoDup (map_keys registry)
  /\ insertion_ordered ops registry.
Proof.
  intros st ops registry.
  assert (registry = registry_after ops) as Hreg.
  { unfold registry, st, ops. rewrite <- state_after_snoc. apply run_registry. }
  split; [done|]. split; [apply step_rosters|]. rewrite Hreg.
  split; [apply keyed_Forall2, registry_after_keyed|].
  split; [apply registry_after_entries|].
  split; [apply registry_after_NoDup|apply registry_after_insertion_ordered].
Qed.

End RunFacts.

(** ** Revision [part_001] *)

Section Part001Facts.

Context {DB : Type} {store : MessageStore DB}.
Implicit Types (st : State DB) (socket : Socket).

(** The connection handler of [part_000] registers the socket. *)
Lemma on_connection_registers socket st :
  activeUsers (on_connection socket st).1.2 = register socket (activeUsers st).
Proof. done. Qed.

(** In [part_001] the insert is followed by a single [io.emit]; it reaches
    every connected socket, the new one included. *)
Lemma on_connection_part001_single_announcement socket st :
  let registry := register_part001 socket (activeUsers st) in
  on_connection_part001 socket st =
    (Ok tt, with_activeUsers registry st,
     [Emitted IoEmit (ActiveUsers (map_values registry)) (socket_id <$> sockets st);
      Join (socket_id socket) (id (user socket))]).
Proof. done. Qed.

End Part001Facts.

(** The registry of [part_001] holds one entry per id as well. *)
Lemma part001_one_entry_per_identity (ops : list RegistryOp) (socket : Socket) :
  let m' := register_part001 socket (registry_after_part001 ops) in
  NoDup (map_keys m')
  /\ map_get (id (user socket)) m'
     = Some (mkEntry None (username (user socket)) (socket_id socket)).
Proof.
  split.
  - apply map_set_NoDup, registry_after_part001_NoDup.
  - apply map_get_set.
Qed.

(** ** The store modelled from the spec *)

Lemma find_message_app_new mid doc l :
  find_message mid l = None -> doc_id doc = mid ->
  find_message mid (l ++ [doc]) = Some doc.
Proof.
  unfold find_message. intros Hnone <-. induction l as [|x l IH]; simpl in *.
  - by rewrite String.eqb_refl.
  - destruct (String.eqb (doc_id x) (doc_id doc)); [done|]. by apply IH.
Qed.

Lemma SpecStore_reads_back_sender : reads_back_sender SpecStore.
Proof.
  intros doc d d' p r. simpl.
  destruct (valid_content (doc_content doc)); [|done].
  destruct (find_message (doc_id doc) (mem_messages d)) eqn:Hfind; [done|].
  intros [= <-]. simpl. rewrite (find_message_app_new _ doc) by done. simpl.
  intros [= <-]. unfold populate. simpl.
  destruct (map_get (doc_sender doc) (mem_users d)); simpl; [|done].
  by intros [= <-].
Qed.

(** The store modelled from the spec rejects empty, whitespace-only and
    over-long content, and content that is not a string. *)
Lemma SpecStore_rejects_invalid doc d :
  valid_content (doc_content doc) = false -> Message_save doc d = None.
Proof. simpl. by intros ->. Qed.

(** ** The client *)

Lemma strict_eq_refl_truthy (v : option string) :
  Client.falsy v = false -> Client.strict_eq v v = true.
Proof. destruct v as [s|]; simpl; [|done]. intros _. apply String.eqb_refl. Qed.

(** A message whose id is already in the list is ignored. *)
Lemma on_newMessage_duplicate_ignored (message : Client.Message) (prev : list Client.Message) :
  existsb (fun msg => Client.strict_eq (Client._id msg) (Client._id message)) prev = true ->
  Client.on_newMessage (Some message) prev = prev.
Proof.
  intros Hex. unfold Client.on_newMessage.
  destruct (Client.falsy (Client._id message)); [done|].
  destruct (Client.falsy (Client.content message)); [done|]. by rewrite Hex.
Qed.

(** [C9] Delivering the same [newMessage] event twice leaves the message
    list as one delivery leaves it. *)
Theorem C9_newMessage_idempotent (message : option Client.Message)
    (prev : list Client.Message) :
  Client.on_newMessage message (Client.on_newMessage message prev)
    = Client.on_newMessage message prev.
Proof.
  destruct message as [message|]; [|done]. unfold Client.on_newMessage.
  destruct (Client.falsy (Client._id message)) eqn:Hid; [by rewrite ?Hid|].
  destruct (Client.falsy (Client.content message)) eqn:Hc; [by rewrite ?Hc|].
  destruct (existsb _ prev) eqn:Hex.
  - by rewrite Hex.
  - rewrite existsb_app. simpl. rewrite strict_eq_refl_truthy by done.
    by rewrite orb_true_r.
Qed.

(** Once accepted, a message is ignored however many other events come in
    between. *)
Lemma on_newMessage_accepted_stays (message : Client.Message)
    (prev later : list Client.Message) :
  Client.falsy (Client._id message) = false ->
  Client.on_newMessage (Some message) (prev ++ [message] ++ later)
    = prev ++ [message] ++ later.
Proof.
  intros Hid. apply on_newMessage_duplicate_ignored.
  rewrite !existsb_app. simpl. rewrite strict_eq_refl_truthy by done.
  by rewrite orb_true_r.
Qed.

(** The earlier revisions append unconditionally: a second delivery adds a
    second copy. *)
Lemma on_newMessage_earlier_duplicates (message : option Client.Message)
    (prev : list (option Client.Message)) :
  Client.on_newMessage_earlier message (Client.on_newMessage_earlier message prev)
    = prev ++ [message; message].
Proof. unfold Client.on_newMessage_earlier. by rewrite <- app_assoc. Qed.

(** ** Concrete runs *)

(** The two users of [demo_inputs] are connected and registered in the order
    of their connections. *)
Example demo_state_value :
  demo_state =
    mkState
      [("u1", mkEntry (Some "u1") "alice" 0); ("u2", mkEntry (Some "u2") "bob" 1)]
      [alice_socket; bob_socket] 2 demo_db.
Proof. reflexivity. Qed.

(** The scenario of the specification: alice connects, bob connects, bob
    sends "hi", bob disconnects. *)
Example end_to_end_scenario :
  log_of demo_verify
    (demo_inputs ++ [SendMessage 1 hi_payload "m1" 5; Disconnect 1])
    (init_state demo_db)
  = [Emitted (SocketEmit 0) (ActiveUsers [mkEntry (Some "u1") "alice" 0]) [0];
     Emitted (SocketBroadcastEmit 0) (ActiveUsers [mkEntry (Some "u1") "alice" 0]) [];
     Join 0 "u1";
     Emitted (SocketEmit 1)
       (ActiveUsers [mkEntry (Some "u1") "alice" 0; mkEntry (Some "u2") "bob" 1]) [1];
     Emitted (SocketBroadcastEmit 1)
       (ActiveUsers [mkEntry (Some "u1") "alice" 0; mkEntry (Some "u2") "bob" 1]) [0];
     Join 1 "u2";
     CallSave (mkDoc "m1" "u2" (JString "hi") 5);
     CallFindById "m1";
     Emitted IoEmit
       (NewMessage
          (Some (mkPopulated "m1" (Some (mkUserRef "u2" "bob")) (JString "hi") 5)))
       [0; 1];
     Emitted IoEmit (ActiveUsers [mkEntry (Some "u1") "alice" 0]) [0]].
Proof. reflexivity. Qed.

(** A second connection of alice takes over her entry where it stands. *)
Example reconnect_keeps_first_place :
  map_values (activeUsers
    (state_after demo_verify (demo_inputs ++ [Connect (JString "alice-renamed-token")])
       (init_state demo_db)))
  = [mkEntry (Some "u1") "alice2" 2; mkEntry (Some "u2") "bob" 1].
Proof. reflexivity. Qed.

(** The store modelled from the spec holds exactly the one new record after
    a valid submission. *)
Example hi_message_persisted_once :
  mem_messages (db (on_sendMessage bob_socket hi_payload "m1" 5 demo_state).1.2)
    = [mkDoc "m1" "u2" (JString "hi") 5].
Proof. reflexivity. Qed.

(** An id that is removed and registered again moves to the end: its
    current entry is the later insertion. *)
Example reinsertion_goes_last :
  let ops := [Register alice_socket; Register bob_socket; Unregister "u1";
              Register (mkSocket 2 alice)] in
  map_keys (registry_after ops) = ["u2"; "u1"]
  /\ inserted_at ops "u2" = Some 1 /\ inserted_at ops "u1" = Some 3.
Proof. repeat split. Qed.

(** The registry is keyed by identity: when the older of two sockets of
    alice disconnects, her entry goes although the newer socket stays
    connected. *)
Example older_socket_disconnect_removes_identity :
  let st := state_after demo_verify
              (demo_inputs ++ [Connect (JString "alice-renamed-token"); Disconnect 0])
              (init_state demo_db) in
  map_keys (activeUsers st) = ["u2"] /\ socket_id <$> sockets st = [1; 2].
Proof. repeat split. Qed.


(** [C8, counterexample] Alice, bob and a second socket of alice connect,
    then the first socket of alice disconnects: the roster sent to the two
    sockets that remain lists bob alone, although alice is connected on
    socket 2. The record of bob carries his socket id besides his id and
    username. *)
Lemma C8_connected_identity_missing_from_roster :
  let st := state_after demo_verify
              (demo_inputs ++ [Connect (JString "alice-renamed-token")])
              (init_state demo_db) in
  let after_ := step demo_verify (Disconnect 0) st in
  after_.2 = [Emitted IoEmit (ActiveUsers [mkEntry (Some "u2") "bob" 1]) [1; 2]]
  /\ emitted_rosters after_.2 = [[mkEntry (Some "u2") "bob" 1]]
  /\ sockets after_.1.2 = [bob_socket; mkSocket 2 (mkIdentity "u1" "alice2")]
  /\ (forall e, e ∈ [mkEntry (Some "u2") "bob" 1] -> entry_id e <> Some "u1").
Proof.
  repeat split. intros e ->%list_elem_of_singleton. discriminate.
Qed.

(** ** The theorems at concrete inputs *)




Lemma payloads_differ_in_sender_only field :
  field <> "sender" ->
  get_property hi_payload field = get_property hi_payload_spoofed field.
Proof.
  intros Hne. unfold hi_payload, hi_payload_spoofed, get_property, lookup_field.
  destruct (String.eqb "content" field); [done|].
  destruct (String.eqb_spec "sender" field) as [Heq|_]; [|done].
  by destruct Hne.
Qed.

(** [C6] at two payloads of bob, one of which names another sender. *)
Lemma C6_sender_witness :
  on_sendMessage bob_socket hi_payload "m1" 5 demo_state
    = on_sendMessage bob_socket hi_payload_spoofed "m1" 5 demo_state
  /\ saved_docs (on_sendMessage bob_socket hi_payload_spoofed "m1" 5 demo_state).2
     = [mkDoc "m1" "u2" (JString "hi") 5].
Proof.
  destruct (C6_sender_is_authenticated_identity (store := SpecStore)
              bob_socket hi_payload hi_payload_spoofed "m1" 5%Z demo_state
              payloads_differ_in_sender_only SpecStore_reads_back_sender)
    as (Hsame & _ & _).
  split; [exact Hsame|reflexivity].
Defined.

(** [C5] at a handshake without a token and at one with an unknown token. *)
Lemma C5_failed_verification_witness :
  step demo_verify (Connect JUndefined) demo_state
    = (Ok tt, demo_state, [ConnectError "Authentication error: No token provided"])
  /\ step demo_verify (Connect (JString "forged")) demo_state
     = (Ok tt, demo_state, [ConnectError "Authentication error: Invalid token"]).
Proof.
  split.
  - exact (proj1 (proj2 (C5_failed_verification_not_admitted (store := SpecStore)
             demo_verify JUndefined demo_state (or_introl eq_refl)))).
  - exact (proj1 (proj2 (C5_failed_verification_not_admitted (store := SpecStore)
             demo_verify (JString "forged") demo_state (or_intror eq_refl)))).
Defined.

(** [C7] at bob connecting after alice. *)
Lemma C7_admission_witness :
  auth_middleware demo_verify (JString "bob-token") = inl bob
  /\ emitted_rosters
       (step demo_verify (Connect (JString "bob-token"))
          (state_after demo_verify [Connect (JString "alice-token")] (init_state demo_db))).2
     = [[mkEntry (Some "u1") "alice" 0; mkEntry (Some "u2") "bob" 1];
        [mkEntry (Some "u1") "alice" 0; mkEntry (Some "u2") "bob" 1]].
Proof.
  split; [reflexivity|].
  exact (proj1 (proj2 (C7_admission_announces_roster (store := SpecStore) demo_verify
           demo_db [Connect (JString "alice-token")] (JString "bob-token") bob eq_refl))).
Defined.

(** [C10] at alice connecting again, under a new username, after bob. *)
Lemma C10_reregistration_witness :
  map_keys (registry_after [Register alice_socket; Register bob_socket]) !! 0 = Some "u1"
  /\ map_values (register (mkSocket 2 (mkIdentity "u1" "alice2"))
       (registry_after [Register alice_socket; Register bob_socket]))
     = [mkEntry (Some "u1") "alice2" 2; mkEntry (Some "u2") "bob" 1].
Proof.
  split; [reflexivity|].
  exact (proj1 (proj2 (C10_reregistration_keeps_position
           [Register alice_socket; Register bob_socket]
           (mkSocket 2 (mkIdentity "u1" "alice2")) 0 eq_refl))).
Defined.

(* ===================================================================== *)
(** * Further properties of the server *)
(* ===================================================================== *)

(** ** Connected sockets *)

Lemma find_socket_Some sid (l : list Socket) s :
  find_socket sid l = Some s -> s ∈ l /\ socket_id s = sid.
Proof.
  unfold find_socket. induction l as [|x l IH]; simpl; [done|].
  destruct (Nat.eqb_spec (socket_id x) sid) as [Heq|Hne].
  - intros [= <-]. split; [by left|done].
  - intros Hf. destruct (IH Hf) as [Hin Hid]. split; [by right|done].
Qed.

Lemma find_socket_None sid (l : list Socket) :
  find_socket sid l = None <-> sid ∉ (socket_id <$> l).
Proof.
  unfold find_socket. induction l as [|x l IH]; csimpl.
  - split; [intros _ Hin; by apply elem_of_nil in Hin|done].
  - destruct (Nat.eqb_spec (socket_id x) sid) as [Heq|Hne].
    + split; [done|]. intros Hnin. exfalso. apply Hnin. subst. apply list_elem_of_here.
    + rewrite IH, not_elem_of_cons. split; [by intros ?|by intros [_ ?]].
Qed.

Lemma socket_id_inj (l : list Socket) s s' :
  NoDup (socket_id <$> l) -> s ∈ l -> s' ∈ l -> socket_id s = socket_id s' -> s = s'.
Proof.
  induction l as [|x l IH]; csimpl; intros Hnd Hs Hs' Heq.
  - by apply elem_of_nil in Hs.
  - apply NoDup_cons in Hnd as [Hx Hnd].
    apply elem_of_cons in Hs as [->|Hs]; apply elem_of_cons in Hs' as [->|Hs'].
    + done.
    + exfalso. apply Hx. rewrite Heq. by apply list_elem_of_fmap_2.
    + exfalso. apply Hx. rewrite <- Heq. by apply list_elem_of_fmap_2.
    + by apply IH.
Qed.

Lemma find_socket_elem (l : list Socket) s :
  NoDup (socket_id <$> l) -> s ∈ l -> find_socket (socket_id s) l = Some s.
Proof.
  intros Hnd Hs. destruct (find_socket (socket_id s) l) as [s'|] eqn:Hf.
  - apply find_socket_Some in Hf as [Hin Hid]. f_equal. by eapply socket_id_inj.
  - apply find_socket_None in Hf. exfalso. apply Hf. by apply list_elem_of_fmap_2.
Qed.

Lemma filter_socket_ids sid (l : list Socket) :
  socket_id <$> filter (fun s => socket_id s <> sid) l
    = filter (fun r => r <> sid) (socket_id <$> l).
Proof.
  induction l as [|x l IH]; [done|]. csimpl.
  destruct (decide (socket_id x = sid)) as [Heq|Hne].
  - rewrite !filter_cons_False by (intros Hc; by apply Hc). done.
  - rewrite !filter_cons_True by done. csimpl. by rewrite IH.
Qed.

Section SocketFacts.

Context {DB : Type} {store : MessageStore DB}.
Variable jwt_verify : JSValue -> option Identity.
Implicit Types (st : State DB) (socket : Socket) (inputs : list Input).

Local Abbreviation step := (step jwt_verify).
Local Abbreviation state_after := (state_after jwt_verify).

Lemma state_after_app inputs later st :
  state_after (inputs ++ later) st = state_after later (state_after inputs st).
Proof.
  revert st. induction inputs as [|i inputs IH]; intros st; [done|].
  simpl. rewrite !state_after_cons. apply IH.
Qed.

(** What a step does to the set of connected sockets and to the counter. *)
Lemma step_sockets i st :
  let st' := (step i st).1.2 in
  match i with
  | Connect token =>
      match auth_middleware jwt_verify token with
      | inl decoded =>
          sockets st' = sockets st ++ [mkSocket (next_socket_id st) decoded]
          /\ next_socket_id st' = S (next_socket_id st)
      | inr _ => st' = st
      end
  | Disconnect sid =>
      match find_socket sid (sockets st) with
      | Some _ =>
          sockets st' = filter (fun s => socket_id s <> sid) (sockets st)
          /\ next_socket_id st' = next_socket_id st
      | None => st' = st
      end
  | _ => sockets st' = sockets st /\ next_socket_id st' = next_socket_id st
  end.
Proof.
  destruct i as [token|sid data fresh_id now|sid|sid|sid]; simpl.
  - by destruct (auth_middleware jwt_verify token).
  - unfold with_socket. destruct (find_socket sid (sockets st)) as [socket|]; [|done].
    by destruct (on_sendMessage_state socket data fresh_id now st) as (_ & -> & ->).
  - unfold with_socket. by destruct (find_socket sid (sockets st)).
  - unfold with_socket. by destruct (find_socket sid (sockets st)).
  - unfold with_socket. by destruct (find_socket sid (sockets st)).
Qed.

Lemma step_sockets_wf i st : sockets_wf st -> sockets_wf (step i st).1.2.
Proof.
  intros [Hnd Hfresh]. split; [|by apply step_fresh_counter].
  pose proof (step_sockets i st) as Hs. simpl in Hs.
  destruct i as [token|sid data fresh_id now|sid|sid|sid].
  - destruct (auth_middleware jwt_verify token); [|by rewrite Hs].
    destruct Hs as [-> _]. rewrite fmap_app. apply NoDup_app. split; [done|].
    split; [|apply NoDup_singleton].
    intros r (s & Hr & Hs)%list_elem_of_fmap Hnew%list_elem_of_singleton.
    unfold fresh_counter in Hfresh. rewrite Forall_forall in Hfresh.
    apply Hfresh in Hs. simpl in *. lia.
  - by destruct Hs as [-> _].
  - by destruct Hs as [-> _].
  - by destruct Hs as [-> _].
  - destruct (find_socket sid (sockets st)); [|by rewrite Hs].
    destruct Hs as [-> _]. rewrite filter_socket_ids. by apply NoDup_filter.
Qed.

Lemma run_sockets_wf inputs d : sockets_wf (state_after inputs (init_state d)).
Proof.
  induction inputs as [|i inputs IH] using rev_ind.
  - split; [apply NoDup_nil_2|constructor].
  - rewrite state_after_snoc. by apply step_sockets_wf.
Qed.

End SocketFacts.

(** ** Typing indicators, disconnects and unknown sockets *)

Section EventFacts.

Context {DB : Type} {store : MessageStore DB}.
Variable jwt_verify : JSValue -> option Identity.
Implicit Types (st : State DB) (socket : Socket) (inputs : list Input).

Local Abbreviation step := (step jwt_verify).
Local Abbreviation state_after := (state_after jwt_verify).

(** [X1] In every reachable state, a [typing] (resp. [stopTyping]) event of
    a connected socket changes nothing in the server state and is relayed as
    one [userTyping] (resp. [userStopTyping]) emission that carries the
    username of the socket's verified identity; it reaches every other
    connected socket exactly once and never the sender. *)
Theorem X1_typing_relayed_to_the_others d inputs sid socket :
  let st := state_after inputs (init_state d) in
  find_socket sid (sockets st) = Some socket ->
  let others := filter (fun r => r <> sid) (socket_id <$> sockets st) in
  step (Typing sid) st
    = (Ok tt, st,
       [Emitted (SocketBroadcastEmit sid) (UserTyping (username (user socket))) others])
  /\ step (StopTyping sid) st
     = (Ok tt, st,
        [Emitted (SocketBroadcastEmit sid) (UserStopTyping (username (user socket)))
           others])
  /\ (sid ∉ others)
  /\ NoDup others
  /\ (forall s, s ∈ sockets st -> s <> socket -> socket_id s ∈ others).
Proof.
  intros st Hfind others.
  destruct (run_sockets_wf jwt_verify inputs d) as [Hnd _]. fold st in Hnd.
  destruct (find_socket_Some _ _ _ Hfind) as [Hin Hid].
  split; [|split; [|split; [|split]]].
  - simpl. unfold with_socket. rewrite Hfind. unfold on_typing, socket_broadcast_emit.
    by rewrite Hid.
  - simpl. unfold with_socket. rewrite Hfind. unfold on_stopTyping, socket_broadcast_emit.
    by rewrite Hid.
  - unfold others. rewrite list_elem_of_filter. intros [Hc _]. by apply Hc.
  - by apply NoDup_filter.
  - intros s Hs Hne. unfold others. apply list_elem_of_filter. split.
    + intros Heq. apply Hne. eapply socket_id_inj; [done..|]. by rewrite Hid.
    + by apply list_elem_of_fmap_2.
Qed.

(** [X2] In every reachable state, the disconnect of a connected socket
    removes that socket and no other from the connected set, deletes the
    registry entry of the socket's identity and keeps the other entries in
    their order, and announces the registry it leaves by one [io.emit] whose
    recipients are exactly the sockets that remain. *)
Theorem X2_disconnect_unregisters_and_announces d inputs sid socket :
  let st := state_after inputs (init_state d) in
  find_socket sid (sockets st) = Some socket ->
  let st' := (step (Disconnect sid) st).1.2 in
  (step (Disconnect sid) st).2
    = [Emitted IoEmit (ActiveUsers (map_values (activeUsers st')))
         (socket_id <$> sockets st')]
  /\ (sid ∉ (socket_id <$> sockets st'))
  /\ (forall s, s ∈ sockets st' <-> s ∈ sockets st /\ s <> socket)
  /\ (id (user socket) ∉ map_keys (activeUsers st'))
  /\ map_keys (activeUsers st')
     = filter (fun k => k <> id (user socket)) (map_keys (activeUsers st)).
Proof.
  intros st Hfind st'.
  destruct (run_sockets_wf jwt_verify inputs d) as [Hnd _]. fold st in Hnd.
  destruct (find_socket_Some _ _ _ Hfind) as [Hin Hid].
  assert (NoDup (map_keys (activeUsers st))) as Hkeys.
  { unfold st. rewrite run_registry. apply registry_after_NoDup. }
  unfold st'. rewrite (step_disconnect jwt_verify sid socket st Hfind). simpl.
  split; [done|]. split; [|split; [|split]].
  - rewrite filter_socket_ids, list_elem_of_filter. intros [Hc _]. by apply Hc.
  - intros s. rewrite list_elem_of_filter. split.
    + intros [Hne Hs]. split; [done|]. intros ->. by apply Hne.
    + intros [Hs Hne]. split; [|done]. intros Heq. apply Hne.
      eapply socket_id_inj; [done..|]. by rewrite Hid.
  - by apply map_delete_not_elem_of.
  - by apply map_delete_keys.
Qed.

(** Whatever the state and the input, every recipient of every emission of a
    step is a socket that is connected when the step ends. *)
Lemma emissions_reach_connected_sockets_only i st r :
  r ∈ recipients_of (step i st).2 ->
  r ∈ (socket_id <$> sockets (step i st).1.2).
Proof.
  destruct i as [token|sid data fresh_id now|sid|sid|sid]; simpl.
  - destruct (auth_middleware jwt_verify token) as [decoded|msg]; simpl.
    + intros [->|Hr]%elem_of_cons.
      * rewrite fmap_app. apply elem_of_app. right. apply list_elem_of_here.
      * rewrite app_nil_r in Hr. by apply list_elem_of_filter in Hr as [_ Hr].
    + by intros ?%elem_of_nil.
  - unfold with_socket.
    destruct (find_socket sid (sockets st)) as [socket|] eqn:Hfind;
      [|by intros ?%elem_of_nil].
    destruct (find_socket_Some _ _ _ Hfind) as [Hin Hid].
    destruct (on_sendMessage_state socket data fresh_id now st) as (_ & -> & _).
    assert (socket_id socket ∈ (socket_id <$> sockets st)) as Hself
      by by apply list_elem_of_fmap_2.
    destruct (get_property data "content") as [c|e] eqn:Hc.
    + destruct (Message_save (mkDoc fresh_id (id (user socket)) c now) (db st))
        as [d1|] eqn:Hs.
      * destruct (Message_findById_populate fresh_id d1) as [p|] eqn:Hf.
        -- erewrite on_sendMessage_persisted by done. simpl. by rewrite app_nil_r.
        -- erewrite on_sendMessage_read_back_rejected by done. simpl.
           by intros ->%list_elem_of_singleton.
      * erewrite on_sendMessage_save_rejected by done. simpl.
        by intros ->%list_elem_of_singleton.
    + erewrite on_sendMessage_no_payload by done. simpl.
      by intros ->%list_elem_of_singleton.
  - unfold with_socket. destruct (find_socket sid (sockets st)); simpl;
      [|by intros ?%elem_of_nil].
    rewrite app_nil_r. by intros [_ ?]%list_elem_of_filter.
  - unfold with_socket. destruct (find_socket sid (sockets st)); simpl;
      [|by intros ?%elem_of_nil].
    rewrite app_nil_r. by intros [_ ?]%list_elem_of_filter.
  - unfold with_socket. destruct (find_socket sid (sockets st)); simpl;
      [|by intros ?%elem_of_nil].
    by rewrite app_nil_r.
Qed.

(** An event that names a socket that is not connected is not dispatched. *)
Lemma step_unknown_socket i sid st :
  input_socket i = Some sid -> sid ∉ (socket_id <$> sockets st) ->
  step i st = (Ok tt, st, []).
Proof.
  intros Hi Hnin%find_socket_None.
  destruct i as [token|sid' data fresh_id now|sid'|sid'|sid']; simpl in Hi;
    [done|injection Hi as ->..]; simpl; unfold with_socket; by rewrite Hnin.
Qed.

Lemma step_keeps_socket_out i sid st :
  fresh_counter st -> sid < next_socket_id st -> sid ∉ (socket_id <$> sockets st) ->
  sid < next_socket_id (step i st).1.2
  /\ sid ∉ (socket_id <$> sockets (step i st).1.2).
Proof.
  intros Hfresh Hlt Hnin. pose proof (step_sockets jwt_verify i st) as Hs. simpl in Hs.
  destruct i as [token|sid' data fresh_id now|sid'|sid'|sid'].
  - destruct (auth_middleware jwt_verify token); [|by rewrite Hs].
    destruct Hs as [-> ->]. split; [lia|].
    rewrite fmap_app, not_elem_of_app. split; [done|]. csimpl.
    intros ->%list_elem_of_singleton. lia.
  - by destruct Hs as [-> ->].
  - by destruct Hs as [-> ->].
  - by destruct Hs as [-> ->].
  - destruct (find_socket sid' (sockets st)); [|by rewrite Hs].
    destruct Hs as [-> ->]. split; [done|].
    rewrite filter_socket_ids, list_elem_of_filter. by intros [_ ?].
Qed.

(** Socket ids are drawn from a counter: an id that has been given out and
    is no longer connected is not connected by any later run, and a later
    event that names it is not dispatched. *)
Lemma disconnected_socket_stays_out d inputs later sid i :
  let st := state_after inputs (init_state d) in
  sid < next_socket_id st ->
  sid ∉ (socket_id <$> sockets st) ->
  input_socket i = Some sid ->
  let st' := state_after later st in
  (sid ∉ (socket_id <$> sockets st')) /\ step i st' = (Ok tt, st', []).
Proof.
  intros st Hlt Hnin Hi st'.
  assert (sid ∉ (socket_id <$> sockets st')) as Hout; [|by split; [|eapply step_unknown_socket]].
  pose proof (run_fresh_counter jwt_verify inputs d) as Hfresh. fold st in Hfresh.
  unfold st'. clearbody st. clear st' inputs.
  revert st Hfresh Hlt Hnin. induction later as [|j later IH]; intros st Hfresh Hlt Hnin.
  - done.
  - rewrite state_after_cons.
    destruct (step_keeps_socket_out j sid st Hfresh Hlt Hnin) as [Hlt' Hnin'].
    apply IH; [by apply step_fresh_counter|done..].
Qed.

End EventFacts.

(** ** The registry and the connected sockets *)

Lemma map_set_Forall {V : Type} (P : string * V -> Prop) k v (m : JSMap V) :
  P (k, v) -> Forall P m -> Forall P (map_set k v m).
Proof.
  intros Hkv. induction 1 as [|[k' v'] rest Hp Hrest IH]; simpl.
  - by apply Forall_singleton.
  - destruct (String.eqb_spec k' k) as [->|_]; constructor; done.
Qed.

Lemma map_delete_elem_of {V : Type} k (m : JSMap V) p :
  NoDup (map_keys m) -> p ∈ map_delete k m -> p ∈ m /\ p.1 <> k.
Proof.
  unfold map_keys. induction m as [|[k' v'] rest IH]; csimpl; intros Hnd Hp.
  - by apply elem_of_nil in Hp.
  - apply NoDup_cons in Hnd as [Hnin Hnd].
    destruct (String.eqb_spec k' k) as [->|Hne].
    + split; [by right|]. intros <-. apply Hnin. by apply list_elem_of_fmap_2.
    + apply elem_of_cons in Hp as [->|Hp]; [split; [by left|done]|].
      destruct (IH Hnd Hp). split; [by right|done].
Qed.

Section RegistryAndSockets.

Context {DB : Type} {store : MessageStore DB}.
Variable jwt_verify : JSValue -> option Identity.
Implicit Types (st : State DB) (socket : Socket) (inputs : list Input).

Local Abbreviation step := (step jwt_verify).
Local Abbreviation state_after := (state_after jwt_verify).

Lemma step_registry_connected i st :
  sockets_wf st -> NoDup (map_keys (activeUsers st)) ->
  registry_connected st -> registry_connected (step i st).1.2.
Proof.
  intros [Hnd _] Hkeys Hconn. unfold registry_connected in *.
  destruct i as [token|sid data fresh_id now|sid|sid|sid]; simpl.
  - destruct (auth_middleware jwt_verify token) as [decoded|msg]; simpl; [|done].
    apply map_set_Forall.
    + exists (mkSocket (next_socket_id st) decoded). split; [|done].
      apply elem_of_app. right. apply list_elem_of_here.
    + eapply Forall_impl; [exact Hconn|]. intros p (s & Hs & He & Hid).
      exists s. split; [|done]. apply elem_of_app. by left.
  - unfold with_socket. destruct (find_socket sid (sockets st)) as [socket|]; [|done].
    by destruct (on_sendMessage_state socket data fresh_id now st) as (-> & -> & _).
  - unfold with_socket. by destruct (find_socket sid (sockets st)).
  - unfold with_socket. by destruct (find_socket sid (sockets st)).
  - unfold with_socket.
    destruct (find_socket sid (sockets st)) as [socket|] eqn:Hfind; [|done]. simpl.
    destruct (find_socket_Some _ _ _ Hfind) as [Hin Hsid].
    rewrite Forall_forall in Hconn. apply Forall_forall. intros p Hp.
    apply map_delete_elem_of in Hp as [Hp Hne]; [|done].
    destruct (Hconn p Hp) as (s & Hs & He & Hid).
    exists s. split; [|done]. apply list_elem_of_filter. split; [|done].
    intros Heq. apply Hne. rewrite <- Hid. f_equal. f_equal.
    eapply socket_id_inj; [done..|]. by rewrite Hsid.
Qed.

Lemma run_registry_connected inputs d :
  registry_connected (state_after inputs (init_state d)).
Proof.
  induction inputs as [|i inputs IH] using rev_ind; [constructor|].
  rewrite state_after_snoc. apply step_registry_connected; [|  |done].
  - apply run_sockets_wf.
  - rewrite run_registry. apply registry_after_NoDup.
Qed.

Lemma registry_socket_ids_NoDup st :
  NoDup (socket_id <$> sockets st) -> NoDup (map_keys (activeUsers st)) ->
  registry_connected st ->
  NoDup ((fun p => entry_socketId p.2) <$> activeUsers st).
Proof.
  unfold registry_connected, map_keys. intros Hnd.
  induction (activeUsers st) as [|[k e] rest IH]; csimpl; intros Hkeys Hconn.
  - apply NoDup_nil_2.
  - apply NoDup_cons in Hkeys as [Hk Hkeys].
    apply Forall_cons in Hconn as [(s & Hs & He & Hid) Hrest].
    apply NoDup_cons. split; [|by apply IH].
    intros ([k' e'] & Heq & Hp')%list_elem_of_fmap. simpl in *.
    rewrite Forall_forall in Hrest.
    destruct (Hrest _ Hp') as (s' & Hs' & He' & Hid'). simpl in *.
    apply Hk. apply list_elem_of_fmap. exists (k', e'). split; [|done]. simpl.
    rewrite <- Hid, <- Hid'. rewrite He, He' in Heq. simpl in Heq.
    by rewrite (socket_id_inj _ s s' Hnd Hs Hs' Heq).
Qed.

(** [X3] In every reachable state each record of the registry describes a
    socket that is connected: it carries the id, the username and the socket
    id of a connected socket whose identity is the key of the record. Hence
    the count reported by [/health] ([activeUsers.size]) never exceeds the
    number of connected sockets. *)
Theorem X3_roster_describes_connected_sockets d inputs :
  let st := state_after inputs (init_state d) in
  (forall k e, (k, e) ∈ activeUsers st ->
     exists s, s ∈ sockets st
       /\ e = mkEntry (Some k) (username (user s)) (socket_id s)
       /\ id (user s) = k)
  /\ health_activeUsers st <= length (sockets st).
Proof.
  intros st.
  pose proof (run_registry_connected inputs d) as Hconn. fold st in Hconn.
  destruct (run_sockets_wf jwt_verify inputs d) as [Hnd _]. fold st in Hnd.
  assert (NoDup (map_keys (activeUsers st))) as Hkeys.
  { unfold st. rewrite run_registry. apply registry_after_NoDup. }
  split.
  - intros k e Hin. unfold registry_connected in Hconn.
    rewrite Forall_forall in Hconn. exact (Hconn (k, e) Hin).
  - unfold health_activeUsers.
    rewrite <- (length_fmap (fun p => entry_socketId p.2) (activeUsers st)).
    rewrite <- (length_fmap socket_id (sockets st)).
    apply submseteq_length, NoDup_submseteq.
    + by apply registry_socket_ids_NoDup.
    + intros r ([k e] & -> & Hp)%list_elem_of_fmap.
      unfold registry_connected in Hconn. rewrite Forall_forall in Hconn.
      destruct (Hconn _ Hp) as (s & Hs & He & _). simpl in *. rewrite He. simpl.
      by apply list_elem_of_fmap_2.
Qed.

End RegistryAndSockets.

(** ** Removing and re-adding registry entries *)

Lemma map_get_delete {V : Type} k (m : JSMap V) :
  NoDup (map_keys m) -> map_get k (map_delete k m) = None.
Proof.
  unfold map_keys. induction m as [|[k' v'] rest IH]; csimpl; intros Hnd; [done|].
  apply NoDup_cons in Hnd as [Hnin Hnd].
  destruct (String.eqb_spec k' k) as [->|Hne]; simpl.
  - clear IH Hnd. induction rest as [|[k0 v0] rest IH]; csimpl in *; [done|].
    apply not_elem_of_cons in Hnin as [Hne Hnin].
    destruct (String.eqb_spec k0 k) as [->|_]; [done|]. by apply IH.
  - destruct (String.eqb_spec k' k); [done|]. by apply IH.
Qed.

Lemma map_get_delete_ne {V : Type} k k' (m : JSMap V) :
  k' <> k -> map_get k' (map_delete k m) = map_get k' m.
Proof.
  intros Hne. induction m as [|[k0 v0] rest IH]; simpl; [done|].
  destruct (String.eqb_spec k0 k) as [->|Hne0]; simpl.
  - by destruct (String.eqb_spec k k').
  - by rewrite IH.
Qed.

Lemma map_delete_set {V : Type} k v (m : JSMap V) :
  NoDup (map_keys m) -> map_delete k (map_set k v m) = map_delete k m.
Proof.
  unfold map_keys. induction m as [|[k' v'] rest IH]; csimpl; intros Hnd.
  - by rewrite String.eqb_refl.
  - apply NoDup_cons in Hnd as [Hnin Hnd].
    destruct (String.eqb_spec k' k) as [->|Hne]; simpl.
    + by rewrite String.eqb_refl.
    + destruct (String.eqb_spec k' k); [done|]. by rewrite IH.
Qed.

(** [X4] On the registry after any sequence of operations: removing an id
    twice is removing it once, removing an absent id changes nothing, after
    the removal the id has no entry and the other ids keep theirs, a
    registration that follows the removal puts the id last, and a removal
    undoes a registration. *)
Theorem X4_unregister_and_register_compose (ops : list RegistryOp) (socket : Socket) :
  let m := registry_after ops in
  let uid := id (user socket) in
  unregister uid (unregister uid m) = unregister uid m
  /\ (uid ∉ map_keys m -> unregister uid m = m)
  /\ map_get uid (unregister uid m) = None
  /\ (forall k, k <> uid -> map_get k (unregister uid m) = map_get k m)
  /\ map_keys (register socket (unregister uid m))
     = filter (fun k => k <> uid) (map_keys m) ++ [uid]
  /\ unregister uid (register socket m) = unregister uid m.
Proof.
  intros m uid. pose proof (registry_after_NoDup ops) as Hnd. fold m in Hnd.
  unfold unregister, register. fold uid.
  split; [|split; [|split; [|split; [|split]]]].
  - apply map_delete_absent. by apply map_delete_not_elem_of.
  - apply map_delete_absent.
  - by apply map_get_delete.
  - intros k Hne. by apply map_get_delete_ne.
  - rewrite map_set_absent by by apply map_delete_not_elem_of.
    unfold map_keys. rewrite fmap_app. csimpl. f_equal. by apply map_delete_keys.
  - by apply map_delete_set.
Qed.

(** ** Payloads without a content *)

(** [X7] The [sendMessage] handler makes no call on the store exactly when
    the payload is [undefined] or [null]: reading [data.content] throws, the
    exception is caught, the state is unchanged and the only emission is the
    error event to the sender. For any other payload one record reaches
    [save], with the content field of the payload, or [undefined] when the
    payload has none. *)
Theorem X7_nullish_payload_never_reaches_store {DB : Type} {store : MessageStore DB}
    (socket : Socket) (data : JSValue) (fresh_id : string) (now : Z) (st : State DB) :
  let run := on_sendMessage socket data fresh_id now st in
  (saved_docs run.2 = [] <-> data = JUndefined \/ data = JNull)
  /\ (data = JUndefined \/ data = JNull -> run = (Ok tt, st, [failed_to_send socket]))
  /\ (forall doc, doc ∈ saved_docs run.2 ->
        doc = mkDoc fresh_id (id (user socket))
                (match data with
                 | JObject fields => lookup_field "content" fields
                 | _ => JUndefined
                 end) now).
Proof.
  intros run. subst run.
  destruct (get_property data "content") as [c|e] eqn:Hc.
  - rewrite (on_sendMessage_always_saves socket data fresh_id now st c Hc).
    split; [|split].
    + split; [done|]. by intros [->| ->].
    + by intros [->| ->].
    + intros doc ->%list_elem_of_singleton. destruct data; simpl in Hc; congruence.
  - rewrite (on_sendMessage_no_payload socket data fresh_id now st e Hc). simpl.
    split; [|split].
    + split; [|done]. intros _. destruct data; simpl in Hc; try done; auto.
    + done.
    + by intros doc ?%elem_of_nil.
Qed.

(** ** Who receives the roster of a new connection *)

Lemma filter_fresh_id (n : nat) (ids : list nat) :
  n ∉ ids -> filter (fun r => r <> n) (ids ++ [n]) = ids.
Proof.
  intros Hn. rewrite filter_app, filter_all.
  - rewrite filter_cons_False by (intros Hc; by apply Hc). by rewrite app_nil_r.
  - apply Forall_forall. intros r Hr ->. done.
Qed.

Section ConnectionDeliveries.

Context {DB : Type} {store : MessageStore DB}.
Variable jwt_verify : JSValue -> option Identity.

(** [X8] When a socket is accepted in a reachable state, the two
    announcements of the connection handler of [part_000] deliver, taken
    together, the roster that follows the insert exactly once to each
    connected socket, the new one included (the connected sockets have
    pairwise distinct ids). The single [io.emit] of [part_001] has the same
    recipients, in any state. *)
Theorem X8_roster_reaches_each_socket_once d inputs decoded (st1 : State DB) socket1 :
  let st := state_after jwt_verify inputs (init_state d) in
  let accepted := (accept_socket decoded st).1.2 in
  let socket := mkSocket (next_socket_id st) decoded in
  let roster := map_values (register socket (activeUsers st)) in
  sockets accepted = sockets st ++ [socket]
  /\ NoDup (socket_id <$> sockets accepted)
  /\ deliveries (on_connection socket accepted).2
       ≡ₚ (fun r => (r, ActiveUsers roster)) <$> (socket_id <$> sockets accepted)
  /\ deliveries (on_connection_part001 socket1 st1).2
     = (fun r => (r, ActiveUsers (map_values (register_part001 socket1 (activeUsers st1)))))
         <$> (socket_id <$> sockets st1).
Proof.
  intros st accepted socket roster.
  destruct (run_sockets_wf jwt_verify inputs d) as [Hnd Hfresh].
  fold st in Hnd, Hfresh.
  assert (socket_id socket ∉ (socket_id <$> sockets st)) as Hnew.
  { unfold fresh_counter in Hfresh. rewrite Forall_forall in Hfresh.
    intros (s & Heq & Hs)%list_elem_of_fmap. apply Hfresh in Hs. simpl in Heq. lia. }
  split; [done|]. split; [|split].
  - unfold accepted. simpl. rewrite fmap_app. apply NoDup_app. split; [done|].
    split; [|apply NoDup_singleton].
    intros r Hr ->%list_elem_of_singleton. by apply Hnew.
  - change (deliveries (on_connection socket accepted).2) with
      ((socket_id socket, ActiveUsers roster)
       :: ((fun r => (r, ActiveUsers roster))
             <$> filter (fun r => r <> socket_id socket)
                   (socket_id <$> (sockets st ++ [socket]))) ++ []).
    change (sockets accepted) with (sockets st ++ [socket]).
    rewrite app_nil_r, !fmap_app. csimpl.
    change (socket_id socket) with (next_socket_id st) in Hnew.
    rewrite (filter_fresh_id _ _ Hnew). apply Permutation_cons_append.
  - simpl. by rewrite app_nil_r.
Qed.

End ConnectionDeliveries.

(** ** Configuration: the frontend URL and the CORS origin check *)

Lemma strip_trailing_slash_app (s : string) :
  strip_trailing_slash (s ++ "/")%string = s.
Proof.
  induction s as [|c s IH]; [done|]. simpl.
  destruct (s ++ "/")%string eqn:E.
  - by destruct s.
  - by rewrite IH.
Qed.

Lemma strip_trailing_slash_cons (c : ascii) (t : string) :
  t <> EmptyString ->
  strip_trailing_slash (String c t) = String c (strip_trailing_slash t).
Proof. by destruct t. Qed.

Lemma strip_trailing_slash_cases (s : string) :
  strip_trailing_slash s = s \/ s = (strip_trailing_slash s ++ "/")%string.
Proof.
  induction s as [|c t IH]; [by left|].
  destruct (decide (t = EmptyString)) as [->|Hne].
  - simpl. destruct (Ascii.eqb_spec c "/") as [->|_]; [by right|by left].
  - rewrite strip_trailing_slash_cons by done. destruct IH as [IH|IH].
    + left. by rewrite IH.
    + right. by rewrite IH at 1.
Qed.

Lemma string_length_append (a b : string) :
  String.length (a ++ b)%string = String.length a + String.length b.
Proof. induction a as [|c a IH]; simpl; [done|]. by rewrite IH. Qed.

(** [X5] [replace(/\/$/, '')] removes exactly one trailing slash: it undoes
    the appending of a slash, it leaves a string that does not end in a slash
    as it is, and in every case the string is the result, or the result
    followed by one slash. *)
Theorem X5_strip_trailing_slash (s : string) :
  strip_trailing_slash (s ++ "/")%string = s
  /\ ((forall t, s <> (t ++ "/")%string) -> strip_trailing_slash s = s)
  /\ (strip_trailing_slash s = s \/ s = (strip_trailing_slash s ++ "/")%string)
  /\ String.length (strip_trailing_slash s) <= String.length s.
Proof.
  split; [apply strip_trailing_slash_app|]. split; [|split].
  - intros Hno. destruct (strip_trailing_slash_cases s) as [?|Hs]; [done|].
    by destruct (Hno _ Hs).
  - apply strip_trailing_slash_cases.
  - destruct (strip_trailing_slash_cases s) as [->|Hs]; [done|].
    rewrite Hs at 2. rewrite string_length_append. lia.
Qed.

(** Only one slash goes: a URL that ends in two slashes keeps one. *)
Example strip_trailing_slash_twice :
  strip_trailing_slash "https://chat.example//" = "https://chat.example/".
Proof. reflexivity. Qed.

Lemma frontendUrl_slash (u : string) :
  frontendUrl (Some (u ++ "/")%string) = (u ++ "/")%string.
Proof.
  unfold frontendUrl, env_or.
  destruct (String.eqb_spec (u ++ "/")%string "") as [Heq|_]; [|done].
  by destruct u.
Qed.

(** [X6] The origin check of the Socket.io server of [part_000]. A request
    without an origin (or with an empty one) is always let through, and
    outside production every origin is. In production, with [FRONTEND_URL]
    set to a URL written with a trailing slash, the origins let through are
    exactly the empty one and that URL without the slash; with
    [FRONTEND_URL] unset they are the empty one and the local default. Every
    refusal carries the message ['Not allowed by CORS']. *)
Theorem X6_socket_cors_origin (FRONTEND_URL NODE_ENV : option string) (u o : string) :
  socket_cors_origin FRONTEND_URL NODE_ENV None = None
  /\ socket_cors_origin FRONTEND_URL NODE_ENV (Some "") = None
  /\ (NODE_ENV <> Some "production" ->
      socket_cors_origin FRONTEND_URL NODE_ENV (Some o) = None)
  /\ (socket_cors_origin (Some (u ++ "/")%string) (Some "production") (Some o) = None
      <-> o = "" \/ o = u)
  /\ (socket_cors_origin None (Some "production") (Some o) = None
      <-> o = "" \/ o = "http://localhost:5173")
  /\ (socket_cors_origin FRONTEND_URL NODE_ENV (Some o) = None
      \/ socket_cors_origin FRONTEND_URL NODE_ENV (Some o) = Some "Not allowed by CORS").
Proof.
  split; [done|]. split; [done|]. split; [|split; [|split]].
  - intros Henv. unfold socket_cors_origin.
    destruct NODE_ENV as [e|].
    + destruct (String.eqb_spec e "production") as [->|_]; [done|].
      simpl. by rewrite !orb_true_r.
    + simpl. by rewrite !orb_true_r.
  - unfold socket_cors_origin, cleanFrontendUrl.
    rewrite frontendUrl_slash, strip_trailing_slash_app. simpl.
    rewrite orb_false_r.
    destruct (String.eqb_spec o "") as [->|Hne]; simpl; [split; [by left|done]|].
    destruct (String.eqb_spec o u) as [->|Hne']; simpl.
    + split; [by right|done].
    + split; [done|]. by intros [?|?].
  - unfold socket_cors_origin, cleanFrontendUrl. simpl. rewrite orb_false_r.
    destruct (String.eqb_spec o "") as [->|Hne]; simpl; [split; [by left|done]|].
    destruct (String.eqb_spec o "http://localhost:5173") as [->|Hne']; simpl.
    + split; [by right|done].
    + split; [done|]. by intros [?|?].
  - unfold socket_cors_origin. destruct (_ || _ || _); [by left|by right].
Qed.

(* ===================================================================== *)
(** * Further properties of the client *)
(* ===================================================================== *)

(** ** The socket module *)

Lemma SocketJs_after_snoc calls c :
  SocketJs.after (calls ++ [c]) = SocketJs.call (SocketJs.after calls) c.
Proof. unfold SocketJs.after. by rewrite fold_left_app. Qed.

Lemma drop_current_closes_all w :
  one_open_socket w ->
  SocketJs.socket (SocketJs.drop_current w) = None
  /\ SocketJs.opened (SocketJs.drop_current w) = [].
Proof.
  unfold one_open_socket, SocketJs.drop_current.
  destruct (SocketJs.socket w) as [h|] eqn:Hs.
  - intros [token Ho]. simpl. rewrite Ho. split; [done|].
    rewrite filter_cons_False by (intros Hc; by apply Hc). done.
  - intros Ho. by rewrite Hs.
Qed.

Lemma call_one_open_socket w c :
  one_open_socket w -> one_open_socket (SocketJs.call w c).
Proof.
  intros Hw. destruct (drop_current_closes_all w Hw) as [Hs Ho].
  destruct c as [token|]; unfold one_open_socket; simpl.
  - rewrite Ho. by eexists.
  - unfold SocketJs.disconnectSocket. by rewrite Hs.
Qed.

Lemma after_one_open_socket calls : one_open_socket (SocketJs.after calls).
Proof.
  induction calls as [|c calls IH] using rev_ind; [done|].
  rewrite SocketJs_after_snoc. by apply call_one_open_socket.
Qed.

(** [X9] After any sequence of [initializeSocket] and [disconnectSocket]
    calls at most one socket is open, and it is the current one:
    [initializeSocket] disconnects the socket it replaces, the socket it
    returns is the current one and carries the token of that call;
    [disconnectSocket] leaves no socket open and no current socket, and a
    second [disconnectSocket] changes nothing. *)
Theorem X9_one_open_socket (calls : list SocketJs.Call) (token : JSValue) :
  let w := SocketJs.after calls in
  (SocketJs.opened w).*1 = option_list (SocketJs.getSocket w)
  /\ (let '(h, w') := SocketJs.initializeSocket token w in
      SocketJs.getSocket w' = Some h /\ SocketJs.opened w' = [(h, token)])
  /\ SocketJs.getSocket (SocketJs.disconnectSocket w) = None
  /\ SocketJs.opened (SocketJs.disconnectSocket w) = []
  /\ SocketJs.disconnectSocket (SocketJs.disconnectSocket w)
     = SocketJs.disconnectSocket w.
Proof.
  intros w. pose proof (after_one_open_socket calls) as Hw. fold w in Hw.
  destruct (drop_current_closes_all w Hw) as [Hs Ho].
  split; [|split; [|split; [|split]]].
  - unfold one_open_socket, SocketJs.getSocket in *.
    destruct (SocketJs.socket w); [destruct Hw as [t ->]|rewrite Hw]; done.
  - simpl. by rewrite Ho.
  - done.
  - done.
  - unfold SocketJs.disconnectSocket.
    unfold SocketJs.drop_current at 1. by rewrite Hs.
Qed.

(** ** The listeners of the socket *)

Lemma setup_earlier_appends rev t :
  rev <> Chat.Rev3 ->
  Chat.setupSocketListeners rev t = t ++ five_listeners rev.
Proof.
  intros Hrev. destruct rev; [| |done];
    unfold five_listeners, Chat.setupSocketListeners, Chat.on;
    by rewrite <- !app_assoc.
Qed.

Lemma off_setup_events t :
  Chat.off "error" (Chat.off "userStopTyping" (Chat.off "userTyping"
    (Chat.off "newMessage" (Chat.off "activeUsers" t))))
  = filter (fun l => Chat.event l ∉ setup_events) t.
Proof.
  unfold Chat.off, setup_events. rewrite !list_filter_filter.
  apply list_filter_iff. intros l. rewrite !not_elem_of_cons.
  pose proof (not_elem_of_nil (Chat.event l)). tauto.
Qed.

Lemma setup_latest_filters t :
  Chat.setupSocketListeners Chat.Rev3 t
  = filter (fun l => Chat.event l ∉ setup_events) t ++ five_listeners Chat.Rev3.
Proof.
  unfold Chat.setupSocketListeners. rewrite off_setup_events.
  unfold Chat.on. by rewrite <- !app_assoc.
Qed.

Lemma setup_latest_idempotent t :
  Chat.setupSocketListeners Chat.Rev3 (Chat.setupSocketListeners Chat.Rev3 t)
  = Chat.setupSocketListeners Chat.Rev3 t.
Proof.
  rewrite !setup_latest_filters, filter_app. f_equal.
  replace (filter _ (five_listeners Chat.Rev3)) with (@nil Chat.Listener) by done.
  rewrite app_nil_r. apply filter_all.
  apply Forall_forall. by intros l [? _]%list_elem_of_filter.
Qed.

Lemma listeners_of_app ev t1 t2 :
  Chat.listeners_of ev (t1 ++ t2) = Chat.listeners_of ev t1 ++ Chat.listeners_of ev t2.
Proof. unfold Chat.listeners_of. by rewrite filter_app, fmap_app. Qed.

Lemma fire_latest_table : Chat.fire Chat.Rev3 "connect" latest_table = latest_table.
Proof. reflexivity. Qed.

(** [X10] In the latest revision [setupSocketListeners] may run any number
    of times: a second run leaves the table of the first. Whether or not the
    socket is connected when the effect runs, after the first ['connect'] and
    after any number of reconnections the table is the same; it holds exactly
    one listener for each of the five events, so one ['newMessage'] event
    updates the messages exactly as one call of the listener does. *)
Theorem X10_latest_listeners_registered_once (n : nat) (t : list Chat.Listener)
    (message : option Client.Message) (messages : list Client.Message) :
  Chat.setupSocketListeners Chat.Rev3 (Chat.setupSocketListeners Chat.Rev3 t)
    = Chat.setupSocketListeners Chat.Rev3 t
  /\ Chat.after_connects Chat.Rev3 true n = latest_table
  /\ Chat.after_connects Chat.Rev3 false (S n) = latest_table
  /\ Chat.listeners_of "newMessage" (Chat.after_connects Chat.Rev3 false 0) = []
  /\ Forall (fun ev => length (Chat.listeners_of ev latest_table) = 1) setup_events
  /\ Chat.deliver_latest latest_table message messages
     = Client.on_newMessage message messages.
Proof.
  split; [apply setup_latest_idempotent|]. split; [|split; [|split; [|split]]].
  - induction n as [|n IH]; [done|]. simpl. by rewrite IH.
  - induction n as [|n IH]; [done|].
    change (Chat.after_connects Chat.Rev3 false (S (S n)))
      with (Chat.fire Chat.Rev3 "connect" (Chat.after_connects Chat.Rev3 false (S n))).
    by rewrite IH.
  - done.
  - repeat constructor.
  - done.
Qed.

Lemma repeat_listeners_no_connect n rev :
  filter (fun l => Chat.event l = "connect") (repeat_listeners n rev) = [].
Proof.
  induction n as [|n IH]; [done|]. simpl. rewrite filter_app, IH.
  by destruct rev.
Qed.

Lemma repeat_listeners_newMessage n rev :
  Chat.listeners_of "newMessage" (repeat_listeners n rev)
  = replicate n Chat.OnNewMessage.
Proof.
  induction n as [|n IH]; [done|]. simpl. rewrite listeners_of_app, IH.
  replace (Chat.listeners_of "newMessage" (five_listeners rev))
    with [Chat.OnNewMessage] by by destruct rev.
  clear IH. induction n as [|n IH]; [done|]. simpl. by rewrite IH.
Qed.

(** In the earlier revisions a ['connect'] event whose listeners are the
    logger and the setup callback appends five listeners. *)
Lemma fire_connect_earlier rev (M : list Chat.Listener) n :
  rev <> Chat.Rev3 ->
  filter (fun l => Chat.event l = "connect") M
    = [Chat.mkListener "connect" Chat.LogConnect false;
       Chat.mkListener "connect" Chat.OnConnectSetup false] ->
  Chat.fire rev "connect" (M ++ repeat_listeners n rev)
  = M ++ repeat_listeners (S n) rev.
Proof.
  intros Hrev HM. unfold Chat.fire.
  rewrite filter_app, HM, repeat_listeners_no_connect. simpl.
  rewrite setup_earlier_appends by done. by rewrite <- app_assoc.
Qed.

Lemma after_connects_Rev2 connected n :
  Chat.after_connects Chat.Rev2 connected n
  = Chat.mount Chat.Rev2 connected Chat.initial_listeners
      ++ repeat_listeners n Chat.Rev2.
Proof.
  induction n as [|n IH]; [by rewrite app_nil_r|].
  change (Chat.after_connects Chat.Rev2 connected (S n))
    with (Chat.fire Chat.Rev2 "connect" (Chat.after_connects Chat.Rev2 connected n)).
  rewrite IH. by apply fire_connect_earlier.
Qed.

Lemma after_connects_Rev1_waiting n :
  Chat.after_connects Chat.Rev1 false n
  = Chat.mount Chat.Rev1 false Chat.initial_listeners
      ++ repeat_listeners n Chat.Rev1.
Proof.
  induction n as [|n IH]; [by rewrite app_nil_r|].
  change (Chat.after_connects Chat.Rev1 false (S n))
    with (Chat.fire Chat.Rev1 "connect" (Chat.after_connects Chat.Rev1 false n)).
  rewrite IH. by apply fire_connect_earlier.
Qed.

Lemma deliver_earlier_replicate k (t : list Chat.Listener) message messages :
  Chat.listeners_of "newMessage" t = replicate k Chat.OnNewMessage ->
  Chat.deliver_earlier t message messages = messages ++ replicate k message.
Proof.
  unfold Chat.deliver_earlier. intros ->. revert messages.
  induction k as [|k IH]; intros messages; simpl; [by rewrite app_nil_r|].
  rewrite IH. unfold Client.on_newMessage_earlier. by rewrite <- app_assoc.
Qed.

(** [X11] In the earlier revisions the listeners pile up. In the second
    revision the effect registers them once and every ['connect'] registers
    them again: after [n] ['connect'] events there are [n + 1] listeners of
    ['newMessage'], and one event appends the message [n + 1] times. In the
    first revision a socket that is not yet connected gets one more set per
    ['connect'] ([n] after [n] events); a socket that is connected when the
    effect runs keeps its single set. *)
Theorem X11_earlier_listeners_accumulate (n : nat) (connected : bool)
    (message : option Client.Message) (messages : list (option Client.Message)) :
  Chat.listeners_of "newMessage" (Chat.after_connects Chat.Rev2 connected n)
    = replicate (S n) Chat.OnNewMessage
  /\ Chat.deliver_earlier (Chat.after_connects Chat.Rev2 connected n) message messages
     = messages ++ replicate (S n) message
  /\ Chat.listeners_of "newMessage" (Chat.after_connects Chat.Rev1 false n)
     = replicate n Chat.OnNewMessage
  /\ Chat.deliver_earlier (Chat.after_connects Chat.Rev1 false n) message messages
     = messages ++ replicate n message
  /\ Chat.listeners_of "newMessage" (Chat.after_connects Chat.Rev1 true n)
     = [Chat.OnNewMessage].
Proof.
  assert (Chat.listeners_of "newMessage" (Chat.after_connects Chat.Rev2 connected n)
          = replicate (S n) Chat.OnNewMessage) as H2.
  { rewrite after_connects_Rev2, listeners_of_app, repeat_listeners_newMessage.
    by destruct connected. }
  assert (Chat.listeners_of "newMessage" (Chat.after_connects Chat.Rev1 false n)
          = replicate n Chat.OnNewMessage) as H1.
  { by rewrite after_connects_Rev1_waiting, listeners_of_app,
      repeat_listeners_newMessage. }
  split; [done|]. split; [by apply deliver_earlier_replicate|].
  split; [done|]. split; [by apply deliver_earlier_replicate|].
  assert (Chat.after_connects Chat.Rev1 true n
          = Chat.mount Chat.Rev1 true Chat.initial_listeners) as ->; [|done].
  clear H1 H2. induction n as [|n IH]; [done|].
  change (Chat.after_connects Chat.Rev1 true (S n))
    with (Chat.fire Chat.Rev1 "connect" (Chat.after_connects Chat.Rev1 true n)).
  by rewrite IH.
Qed.

(** ** Trimming *)

Lemma trim_start_split (s : list N) :
  exists pre, s = pre ++ Chat.trim_start s
    /\ forallb Chat.is_whitespace pre = true.
Proof.
  induction s as [|c s (pre & Hs & Hpre)]; [by exists []|]. simpl.
  destruct (Chat.is_whitespace c) eqn:Hc.
  - exists (c :: pre). simpl. rewrite Hc, Hpre. split; [by rewrite <- Hs|done].
  - by exists [].
Qed.

Lemma trim_start_head (s : list N) c :
  head (Chat.trim_start s) = Some c -> Chat.is_whitespace c = false.
Proof.
  induction s as [|x s IH]; simpl; [done|].
  destruct (Chat.is_whitespace x) eqn:Hx; [done|]. simpl. by intros [= <-].
Qed.

Lemma trim_start_fixed (s : list N) :
  (forall c, head s = Some c -> Chat.is_whitespace c = false) ->
  Chat.trim_start s = s.
Proof. destruct s as [|c s]; simpl; [done|]. intros Hc. by rewrite (Hc c). Qed.

Lemma trim_start_blank (s : list N) :
  Chat.trim_start s = [] <-> forallb Chat.is_whitespace s = true.
Proof.
  induction s as [|c s IH]; simpl; [done|].
  destruct (Chat.is_whitespace c); simpl; [done|]. split; done.
Qed.

Lemma forallb_rev (f : N -> bool) (l : list N) : forallb f (rev l) = forallb f l.
Proof.
  induction l as [|x l IH]; [done|]. simpl.
  rewrite forallb_app, IH. simpl. rewrite andb_true_r. apply andb_comm.
Qed.

Lemma last_rev_head (l : list N) : last (rev l) = head l.
Proof. destruct l as [|x l]; [done|]. simpl. apply last_snoc. Qed.

(** [trim] cuts white space off both ends and nothing else. *)
Lemma trim_split (s : list N) :
  exists pre post,
    s = pre ++ Chat.trim s ++ post
    /\ forallb Chat.is_whitespace pre = true
    /\ forallb Chat.is_whitespace post = true
    /\ (forall c, head (Chat.trim s) = Some c -> Chat.is_whitespace c = false)
    /\ (forall c, last (Chat.trim s) = Some c -> Chat.is_whitespace c = false).
Proof.
  unfold Chat.trim, Chat.trim_end.
  destruct (trim_start_split s) as (pre & Hs & Hpre).
  set (a := Chat.trim_start s) in *.
  destruct (trim_start_split (rev a)) as (q & Ha & Hq).
  set (b := Chat.trim_start (rev a)) in *.
  assert (a = rev b ++ rev q) as Ha'.
  { rewrite <- (rev_involutive a), Ha. by rewrite rev_app_distr. }
  exists pre, (rev q). split; [by rewrite <- Ha'|]. split; [done|].
  split; [by rewrite forallb_rev|]. split.
  - intros c Hc. apply (trim_start_head s). fold a. rewrite Ha'.
    destruct (rev b); [done|]. done.
  - intros c Hc. apply (trim_start_head (rev a)). fold b.
    by rewrite <- last_rev_head.
Qed.

Lemma head_rev_last (l : list N) : head (rev l) = last l.
Proof. by rewrite <- (rev_involutive l) at 2; rewrite last_rev_head. Qed.

Lemma trim_blank (s : list N) :
  Chat.trim s = [] <-> forallb Chat.is_whitespace s = true.
Proof.
  split.
  - intros Ht. destruct (trim_split s) as (pre & post & Hs & Hpre & Hpost & _).
    rewrite Ht in Hs. rewrite Hs. simpl. by rewrite forallb_app, Hpre, Hpost.
  - intros Hs%trim_start_blank. unfold Chat.trim, Chat.trim_end. by rewrite Hs.
Qed.

Lemma trim_fixed (s : list N) :
  (forall c, head s = Some c -> Chat.is_whitespace c = false) ->
  (forall c, last s = Some c -> Chat.is_whitespace c = false) ->
  Chat.trim s = s.
Proof.
  intros Hhead Hlast. unfold Chat.trim, Chat.trim_end.
  rewrite (trim_start_fixed s Hhead).
  rewrite trim_start_fixed; [apply rev_involutive|].
  intros c. rewrite head_rev_last. apply Hlast.
Qed.

Lemma trim_idempotent (s : list N) : Chat.trim (Chat.trim s) = Chat.trim s.
Proof.
  destruct (trim_split s) as (_ & _ & _ & _ & _ & Hhead & Hlast).
  by apply trim_fixed.
Qed.

(** ** Sending a message *)

(** [X14] [handleSendMessage] of the latest revision. With a text that is
    empty or all white space, or without a socket, it does nothing: nothing
    is emitted and the text stays in the input. Otherwise it clears the input
    and emits [stopTyping] and then [sendMessage] with the text cut of the
    white space at both ends and of nothing else: the content is not empty
    and neither starts nor ends with white space. *)
Theorem X14_send_trims_and_skips_blank (c : Chat.Composer) :
  let text := Chat.newMessage c in
  let cleared := Chat.mkComposer [] (Chat.typingTimeoutRef c) (Chat.pending c)
                   (Chat.next_timer c) (Chat.socketRef c) in
  (forallb Chat.is_whitespace text = true \/ Chat.socketRef c = false ->
     Chat.handleSendMessage Chat.Rev3 c = (c, []))
  /\ (forallb Chat.is_whitespace text = false -> Chat.socketRef c = true ->
      exists pre post content,
        Chat.handleSendMessage Chat.Rev3 c
          = (cleared, [Chat.EmitStopTyping; Chat.EmitSendMessage content])
        /\ text = pre ++ content ++ post
        /\ forallb Chat.is_whitespace pre = true
        /\ forallb Chat.is_whitespace post = true
        /\ content <> []
        /\ (forall x, head content = Some x -> Chat.is_whitespace x = false)
        /\ (forall x, last content = Some x -> Chat.is_whitespace x = false)).
Proof.
  intros text cleared. split.
  - intros Hskip. unfold Chat.handleSendMessage. fold text.
    destruct Hskip as [Hblank%trim_blank|Hsock].
    + by rewrite bool_decide_eq_true_2.
    + rewrite Hsock. simpl. by rewrite orb_true_r.
  - intros Htext Hsock.
    destruct (trim_split text) as (pre & post & Hs & Hpre & Hpost & Hhead & Hlast).
    assert (Chat.trim text <> []) as Hne.
    { intros Hc%trim_blank. congruence. }
    exists pre, post, (Chat.trim text). split; [|done].
    unfold Chat.handleSendMessage. fold text.
    rewrite bool_decide_eq_false_2 by done.
    by replace (negb (Chat.socketRef c)) with false by (by rewrite Hsock).
Qed.

Lemma compose_all_cons rev e events c :
  Chat.compose_all rev (e :: events) c
  = ((Chat.compose_all rev events (Chat.compose rev e c).1).1,
     (Chat.compose rev e c).2 ++ (Chat.compose_all rev events (Chat.compose rev e c).1).2).
Proof.
  simpl. destruct (Chat.compose rev e c) as [c1 out1]. simpl.
  by destruct (Chat.compose_all rev events c1) as [c2 out2].
Qed.

Lemma compose_sendable rev e c : Forall (sendable rev) (Chat.compose rev e c).2.
Proof.
  destruct e as [value| |t]; simpl.
  - unfold Chat.handleTyping. simpl.
    destruct (Chat.typingTimeoutRef c); [constructor|].
    destruct (Chat.socketRef c); repeat constructor.
  - unfold Chat.handleSendMessage.
    destruct rev; simpl;
      destruct (bool_decide (Chat.trim (Chat.newMessage c) = [])) eqn:Hb; simpl;
      try constructor; apply bool_decide_eq_false in Hb;
      destruct (Chat.socketRef c); simpl; repeat constructor; try done.
    + intros Hc. apply Hb. by rewrite trim_idempotent in Hc.
    + intros _. apply trim_idempotent.
  - unfold Chat.typing_timeout. case_bool_decide; [|constructor].
    destruct (Chat.socketRef c); repeat constructor.
Qed.

(** [X15] Whatever the user does (typing, submitting, timers firing), in
    every revision every content the composer sends has something other than
    white space in it; in the latest revision it is moreover trimmed (cutting
    it again changes nothing). *)
Theorem X15_no_blank_message_is_sent (rev : Chat.Revision)
    (events : list Chat.ComposerEvent) (c : Chat.Composer) :
  Forall (fun e => match e with
                   | Chat.EmitSendMessage content =>
                       Chat.trim content <> []
                       /\ forallb Chat.is_whitespace content = false
                       /\ (rev = Chat.Rev3 -> Chat.trim content = content)
                   | _ => True
                   end)
    (Chat.compose_all rev events c).2.
Proof.
  eapply Forall_impl with (P := sendable rev).
  - revert c. induction events as [|e events IH]; intros c; [constructor|].
    rewrite compose_all_cons. simpl. apply Forall_app. split; [|apply IH].
    apply compose_sendable.
  - intros [| |content]; simpl; try done. intros [Hne Htrim].
    split; [done|]. split; [|done].
    destruct (forallb Chat.is_whitespace content) eqn:Hb; [|done].
    by apply trim_blank in Hb.
Qed.

(** ** The typing timer *)

Lemma count_typing_app out1 out2 :
  Chat.count_typing (out1 ++ out2) = Chat.count_typing out1 + Chat.count_typing out2.
Proof. unfold Chat.count_typing. by rewrite filter_app, length_app. Qed.

Lemma count_stopTyping_app out1 out2 :
  Chat.count_stopTyping (out1 ++ out2)
  = Chat.count_stopTyping out1 + Chat.count_stopTyping out2.
Proof. unfold Chat.count_stopTyping. by rewrite filter_app, length_app. Qed.

Lemma filter_singleton_self (t : positive) : filter (fun x => x <> t) [t] = [].
Proof. rewrite filter_cons_False by (intros Hc; by apply Hc). done. Qed.

Lemma compose_timer_in_step rev e c :
  timer_in_step c ->
  timer_in_step (Chat.compose rev e c).1
  /\ Chat.count_typing (Chat.compose rev e c).2 + length (Chat.pending c)
     <= Chat.count_stopTyping (Chat.compose rev e c).2
        + length (Chat.pending (Chat.compose rev e c).1).
Proof.
  unfold timer_in_step. intros [Hsock Hc].
  destruct e as [value| |t]; simpl.
  - unfold Chat.handleTyping. simpl. rewrite Hsock.
    destruct Hc as [[-> ->]|(t & -> & ->)]; simpl.
    + split; [|unfold Chat.count_typing, Chat.count_stopTyping; simpl; lia].
      split; [done|]. right. by eexists.
    + rewrite filter_singleton_self. simpl.
      split; [|unfold Chat.count_typing, Chat.count_stopTyping; simpl; lia].
      split; [done|]. right. by eexists.
  - unfold Chat.handleSendMessage.
    destruct rev; simpl;
      destruct (bool_decide (Chat.trim (Chat.newMessage c) = [])); simpl;
      rewrite ?Hsock; simpl;
      (split; [by split|unfold Chat.count_typing, Chat.count_stopTyping; simpl; lia]).
  - unfold Chat.typing_timeout. rewrite Hsock.
    destruct Hc as [[Href Hp]|(t' & Href & Hp)]; rewrite Hp.
    + rewrite bool_decide_eq_false_2 by apply not_elem_of_nil. simpl.
      rewrite Hp. split; [|lia]. split; [done|]. by left.
    + destruct (decide (t = t')) as [->|Hne].
      * rewrite bool_decide_eq_true_2 by apply list_elem_of_here. simpl.
        rewrite filter_singleton_self.
        split; [|unfold Chat.count_typing, Chat.count_stopTyping; simpl; lia].
        split; [done|]. by left.
      * rewrite bool_decide_eq_false_2
          by (intros ->%list_elem_of_singleton; by apply Hne).
        simpl. rewrite Hp. split; [|simpl; lia]. split; [done|]. right. by eexists.
Qed.

Lemma compose_no_timer rev e c :
  no_timer c ->
  no_timer (Chat.compose rev e c).1 /\ (Chat.compose rev e c).2 = [].
Proof.
  unfold no_timer. intros (Hsock & Href & Hp).
  destruct e as [value| |t]; simpl.
  - unfold Chat.handleTyping. simpl. by rewrite Href, Hsock.
  - unfold Chat.handleSendMessage.
    destruct rev; simpl;
      destruct (bool_decide (Chat.trim (Chat.newMessage c) = [])); simpl;
      rewrite ?Hsock; simpl; done.
  - unfold Chat.typing_timeout. rewrite Hp.
    by rewrite bool_decide_eq_false_2 by apply not_elem_of_nil.
Qed.

Lemma compose_all_timer_in_step rev events c :
  timer_in_step c ->
  timer_in_step (Chat.compose_all rev events c).1
  /\ Chat.count_typing (Chat.compose_all rev events c).2 + length (Chat.pending c)
     <= Chat.count_stopTyping (Chat.compose_all rev events c).2
        + length (Chat.pending (Chat.compose_all rev events c).1).
Proof.
  revert c. induction events as [|e events IH]; intros c Hc.
  - split; [done|]. simpl. lia.
  - rewrite compose_all_cons. simpl.
    destruct (compose_timer_in_step rev e c Hc) as [Hc1 Hle1].
    destruct (IH _ Hc1) as [Hc2 Hle2]. split; [done|].
    rewrite count_typing_app, count_stopTyping_app. lia.
Qed.

Lemma compose_all_no_timer rev events c :
  no_timer c ->
  no_timer (Chat.compose_all rev events c).1 /\ (Chat.compose_all rev events c).2 = [].
Proof.
  revert c. induction events as [|e events IH]; intros c Hc; [done|].
  rewrite compose_all_cons. simpl.
  destruct (compose_no_timer rev e c Hc) as [Hc1 ->].
  by destruct (IH _ Hc1) as [Hc2 ->].
Qed.

(** *** [typing] and [stopTyping] alternate *)

Lemma alternates_app open out1 out2 :
  alternates open (out1 ++ out2)
  = alternates open out1 && alternates (open_after open out1) out2.
Proof.
  revert open. induction out1 as [|e out1 IH]; intros open; [done|].
  destruct e as [| |content]; simpl; [destruct open; [done|]| |]; apply IH.
Qed.

(** One event: a [typing] is emitted only when no timer is pending, and
    then no [typing] is open. *)
Lemma compose_alternates rev e c open :
  timer_in_step c ->
  (Chat.pending c = [] -> open = false) ->
  alternates open (Chat.compose rev e c).2 = true
  /\ (Chat.pending (Chat.compose rev e c).1 = [] ->
      open_after open (Chat.compose rev e c).2 = false).
Proof.
  unfold timer_in_step. intros [Hsock Hc] Hopen.
  destruct e as [value| |t]; simpl.
  - unfold Chat.handleTyping. simpl. rewrite Hsock.
    destruct Hc as [[Href Hp]|(t & Href & Hp)]; rewrite Href; simpl.
    + rewrite (Hopen Hp). split; [done|]. rewrite Hp. done.
    + split; [done|]. rewrite Hp, filter_singleton_self. done.
  - unfold Chat.handleSendMessage.
    destruct rev; simpl;
      destruct (bool_decide (Chat.trim (Chat.newMessage c) = [])); simpl;
      rewrite ?Hsock; simpl; (split; [done|]); try done; apply Hopen.
  - unfold Chat.typing_timeout. rewrite Hsock.
    destruct (bool_decide (t ∈ Chat.pending c)); simpl; [done|].
    split; [done|apply Hopen].
Qed.

Lemma compose_all_alternates rev events c open :
  timer_in_step c ->
  (Chat.pending c = [] -> open = false) ->
  alternates open (Chat.compose_all rev events c).2 = true.
Proof.
  revert c open. induction events as [|e events IH]; intros c open Hc Hopen; [done|].
  rewrite compose_all_cons. simpl. rewrite alternates_app.
  destruct (compose_alternates rev e c open Hc Hopen) as [-> Hopen1]. simpl.
  apply IH; [|done]. by apply compose_timer_in_step.
Qed.

Lemma alternates_open_stops between after_ :
  alternates true (between ++ Chat.EmitTyping :: after_) = true ->
  Chat.EmitStopTyping ∈ between.
Proof.
  induction between as [|e between IH]; simpl; [done|].
  destruct e as [| |content]; [done| |].
  - intros _. apply list_elem_of_here.
  - intros H. apply list_elem_of_further. by apply IH.
Qed.

Lemma alternates_typing_never_twice out :
  alternates false out = true -> typing_never_twice out.
Proof.
  intros Halt before between after_ ->.
  rewrite alternates_app in Halt. apply andb_prop in Halt as [_ Halt].
  simpl in Halt. destruct (open_after false before); [done|].
  by apply alternates_open_stops in Halt.
Qed.

(** [X13] Whatever the user does (typing, submitting) and whenever the
    timers fire, the emissions of the composer of a mounted component never
    have two [typing] without a [stopTyping] in between. The composer has at
    most one typing timer pending, and one is pending exactly when
    [typingTimeoutRef] is set; [typing] has been emitted at most once more
    than [stopTyping], and not more often when no timer is pending. Without
    a socket nothing is emitted at all. *)
Theorem X13_typing_and_stopTyping_alternate (rev : Chat.Revision)
    (events : list Chat.ComposerEvent) (has_socket : bool) :
  let run := Chat.compose_all rev events (Chat.composer_init has_socket) in
  typing_never_twice run.2
  /\ alternates false run.2 = true
  /\ Chat.count_typing run.2 <= Chat.count_stopTyping run.2 + length (Chat.pending run.1)
  /\ length (Chat.pending run.1) <= 1
  /\ (Chat.typingTimeoutRef run.1 = None <-> Chat.pending run.1 = [])
  /\ (has_socket = false -> run.2 = []).
Proof.
  intros run. subst run.
  assert (alternates false
            (Chat.compose_all rev events (Chat.composer_init has_socket)).2 = true)
    as Halt.
  { destruct has_socket.
    - apply compose_all_alternates; [split; [done|by left]|done].
    - by destruct (compose_all_no_timer rev events (Chat.composer_init false))
        as [_ ->]. }
  split; [by apply alternates_typing_never_twice|]. split; [done|]. clear Halt.
  destruct has_socket.
  - destruct (compose_all_timer_in_step rev events (Chat.composer_init true))
      as [[_ Hc] Hle]; [split; [done|by left]|].
    simpl in Hle. split; [lia|].
    destruct Hc as [[-> ->]|(t & -> & ->)]; simpl; repeat split; try done; lia.
  - destruct (compose_all_no_timer rev events (Chat.composer_init false))
      as [(_ & -> & ->) ->]; [done|].
    simpl. repeat split; try done; lia.
Qed.

(** ** Selecting a user *)

Lemma strict_eq_true (a b : option string) :
  Client.strict_eq a b = true <-> a = b.
Proof.
  destruct a as [x|], b as [y|]; simpl; try done.
  destruct (String.eqb_spec x y) as [->|Hne]; [done|].
  split; [done|]. by intros [= ->].
Qed.

(** [X12] Whatever records are clicked and however often the user goes
    back, the selected user is never the current user: its id is not the
    user's id and its username is not the user's username. A click on such a
    record leaves the selection as it is. *)
Theorem X12_own_entry_is_never_selected (user : Chat.User)
    (events : list Chat.SelectionEvent) (selected : PresenceEntry) :
  fold_left (Chat.select user) events None = Some selected ->
  entry_id selected <> Some (Chat._id user)
  /\ entry_username selected <> Chat.username user.
Proof.
  induction events as [|e events IH] using rev_ind; [done|].
  rewrite fold_left_app. simpl. destruct e as [clicked|]; simpl; [|done].
  unfold Chat.handleUserClick.
  destruct (Client.strict_eq (entry_id clicked) (Some (Chat._id user))) eqn:Hid;
    simpl; [done|].
  destruct (String.eqb_spec (entry_username clicked) (Chat.username user)) as [?|Hname];
    [done|].
  intros [= <-]. split; [|done].
  intros Hc%strict_eq_true. congruence.
Qed.

(** ** The typing indicator *)

(** [X16] Whatever events arrive and whenever the 3-second timers fire, an
    indicator that is shown has a timer pending that will clear it; the
    pending timers are pairwise distinct, and [userStopTyping] and every
    timer that fires hide the indicator. *)
Theorem X16_shown_indicator_has_a_pending_timer (events : list Chat.IndicatorEvent)
    (t : positive) :
  let i := fold_left Chat.indicate events Chat.indicator_init in
  (Chat.typingUser i = None \/ Chat.clear_timers i <> [])
  /\ NoDup (Chat.clear_timers i)
  /\ Chat.indicator_shown (Chat.indicate i Chat.UserStopTypingEvent) = false
  /\ (t ∈ Chat.clear_timers i ->
      Chat.indicator_shown (Chat.indicate i (Chat.ClearTimerFires t)) = false
      /\ t ∉ Chat.clear_timers (Chat.indicate i (Chat.ClearTimerFires t))).
Proof.
  intros i.
  assert ((Chat.typingUser i = None \/ Chat.clear_timers i <> [])
          /\ NoDup (Chat.clear_timers i)
          /\ Forall (fun x => (x < Chat.next_clear_timer i)%positive)
               (Chat.clear_timers i)) as (Hshown & Hnd & Hlt).
  { subst i. induction events as [|e events IH] using rev_ind.
    - split; [by left|]. split; [apply NoDup_nil_2|constructor].
    - rewrite fold_left_app. simpl.
      set (i := fold_left Chat.indicate events Chat.indicator_init) in *.
      destruct IH as (Hshown & Hnd & Hlt). destruct e as [name| |t']; simpl.
      + split; [right; by destruct (Chat.clear_timers i)|]. split.
        * apply NoDup_app. split; [done|]. split; [|apply NoDup_singleton].
          intros x Hx ->%list_elem_of_singleton.
          rewrite Forall_forall in Hlt. apply Hlt in Hx. lia.
        * apply Forall_app. split.
          -- eapply Forall_impl; [exact Hlt|]. simpl. lia.
          -- repeat constructor. lia.
      + split; [by left|done].
      + case_bool_decide; [|done]. simpl. split; [by left|].
        split; [by apply NoDup_filter|].
        rewrite Forall_forall in Hlt. apply Forall_forall.
        intros x [_ Hx]%list_elem_of_filter. by apply Hlt. }
  split; [done|]. split; [done|]. split; [done|].
  intros Ht. simpl. rewrite bool_decide_eq_true_2 by done. simpl.
  split; [done|]. rewrite list_elem_of_filter. intros [Hc _]. by apply Hc.
Qed.

(** ** The message list *)

Lemma existsb_strict_eq_false (message : Client.Message) (prev : list Client.Message) :
  existsb (fun msg => Client.strict_eq (Client._id msg) (Client._id message)) prev = false ->
  Client._id message ∉ (Client._id <$> prev).
Proof.
  induction prev as [|x prev IH]; csimpl; [intros _; apply not_elem_of_nil|].
  intros [Hx Hrest]%orb_false_elim. apply not_elem_of_cons. split; [|by apply IH].
  intros Heq. symmetry in Heq. apply strict_eq_true in Heq. congruence.
Qed.

Lemma on_newMessage_step (message : option Client.Message) (prev : list Client.Message) :
  Client.on_newMessage message prev = prev
  \/ exists m, message = Some m
       /\ Client.on_newMessage message prev = prev ++ [m]
       /\ Client.falsy (Client._id m) = false
       /\ Client.falsy (Client.content m) = false
       /\ Client._id m ∉ (Client._id <$> prev).
Proof.
  destruct message as [m|]; [|by left]. unfold Client.on_newMessage.
  destruct (Client.falsy (Client._id m)) eqn:Hid; [by left|].
  destruct (Client.falsy (Client.content m)) eqn:Hc; [by left|].
  destruct (existsb _ prev) eqn:Hex; [by left|].
  right. exists m. repeat split; try done. by apply existsb_strict_eq_false.
Qed.

(** [X17] The listener of the latest revision only ever appends: the list
    before any sequence of ['newMessage'] events is a prefix of the list
    after it. When the ids of the loaded messages are pairwise distinct, so
    are the ids of the list after the events, and every message that was
    added has a non-empty id and a non-empty content. *)
Theorem X17_message_ids_stay_distinct (events : list (option Client.Message))
    (prev : list Client.Message) :
  NoDup (Client._id <$> prev) ->
  let messages := fold_left (fun msgs m => Client.on_newMessage m msgs) events prev in
  exists added,
    messages = prev ++ added
    /\ NoDup (Client._id <$> messages)
    /\ Forall (fun m => Some m ∈ events
                 /\ Client.falsy (Client._id m) = false
                 /\ Client.falsy (Client.content m) = false) added.
Proof.
  intros Hnd messages. subst messages.
  induction events as [|e events IH] using rev_ind.
  - exists []. simpl. by rewrite app_nil_r.
  - rewrite fold_left_app. simpl. destruct IH as (added & Hm & Hnd' & Hadded).
    set (msgs := fold_left _ events prev) in *.
    assert (Forall (fun m => Some m ∈ events ++ [e]
                      /\ Client.falsy (Client._id m) = false
                      /\ Client.falsy (Client.content m) = false) added) as Hadded'.
    { eapply Forall_impl; [exact Hadded|]. intros m (Hin & ? & ?).
      split; [|done]. apply elem_of_app. by left. }
    destruct (on_newMessage_step e msgs) as [->|(m & -> & -> & Hid & Hc & Hnew)].
    + by exists added.
    + exists (added ++ [m]). split; [by rewrite Hm, app_assoc|]. split.
      * rewrite fmap_app. apply NoDup_app. split; [done|].
        split; [|apply NoDup_singleton].
        intros x Hx ->%list_elem_of_singleton. by apply Hnew.
      * apply Forall_app. split; [done|]. repeat constructor; try done.
        apply elem_of_app. right. apply list_elem_of_here.
Qed.

(* ===================================================================== *)
(** * The further properties at concrete inputs *)
(* ===================================================================== *)

(** [X1] at bob typing while alice and bob are connected. *)
Lemma X1_typing_witness :
  find_socket 1 (sockets demo_state) = Some bob_socket
  /\ step demo_verify (Typing 1) demo_state
     = (Ok tt, demo_state, [Emitted (SocketBroadcastEmit 1) (UserTyping "bob") [0]]).
Proof.
  split; [reflexivity|].
  exact (proj1 (X1_typing_relayed_to_the_others (store := SpecStore) demo_verify
           demo_db demo_inputs 1 bob_socket eq_refl)).
Defined.

(** [X2] at bob disconnecting while alice and bob are connected. *)
Lemma X2_disconnect_witness :
  find_socket 1 (sockets demo_state) = Some bob_socket
  /\ (step demo_verify (Disconnect 1) demo_state).2
     = [Emitted IoEmit (ActiveUsers [mkEntry (Some "u1") "alice" 0]) [0]].
Proof.
  split; [reflexivity|].
  exact (proj1 (X2_disconnect_unregisters_and_announces (store := SpecStore) demo_verify
           demo_db demo_inputs 1 bob_socket eq_refl)).
Defined.

(** [X12] at alice clicking her own record and then bob's. *)
Lemma X12_selection_witness :
  fold_left (Chat.select (Chat.mkUser "u1" "alice"))
    [Chat.Click (mkEntry (Some "u1") "alice" 0); Chat.Click (mkEntry (Some "u2") "bob" 1)]
    None
  = Some (mkEntry (Some "u2") "bob" 1)
  /\ Some "u2" <> Some "u1".
Proof.
  split; [reflexivity|].
  exact (proj1 (X12_own_entry_is_never_selected (Chat.mkUser "u1" "alice")
           [Chat.Click (mkEntry (Some "u1") "alice" 0);
            Chat.Click (mkEntry (Some "u2") "bob" 1)]
           (mkEntry (Some "u2") "bob" 1) eq_refl)).
Defined.

(** [X17] at a message that arrives twice into an empty list. *)
Lemma X17_distinct_ids_witness :
  NoDup (Client._id <$>
    fold_left (fun msgs m => Client.on_newMessage m msgs)
      [Some (Client.mkMessage (Some "m1") None (Some "hi") None);
       Some (Client.mkMessage (Some "m1") None (Some "hi") None)]
      []).
Proof.
  destruct (X17_message_ids_stay_distinct
              [Some (Client.mkMessage (Some "m1") None (Some "hi") None);
               Some (Client.mkMessage (Some "m1") None (Some "hi") None)]
              [] ltac:(apply NoDup_nil_2)) as (added & _ & Hnd & _).
  exact Hnd.
Defined.

(** [X14] at the text " hi " typed into a composer with a socket. *)
Lemma X14_send_witness :
  let c := Chat.mkComposer [32; 104; 105; 32]%N None [] 1%positive true in
  forallb Chat.is_whitespace (Chat.newMessage c) = false
  /\ exists pre post content,
       Chat.handleSendMessage Chat.Rev3 c
         = (Chat.mkComposer [] None [] 1%positive true,
            [Chat.EmitStopTyping; Chat.EmitSendMessage content])
       /\ Chat.newMessage c = pre ++ content ++ post
       /\ forallb Chat.is_whitespace pre = true
       /\ forallb Chat.is_whitespace post = true
       /\ content <> []
       /\ (forall x, head content = Some x -> Chat.is_whitespace x = false)
       /\ (forall x, last content = Some x -> Chat.is_whitespace x = false).
Proof.
  split; [reflexivity|].
  exact (proj2 (X14_send_trims_and_skips_blank
                  (Chat.mkComposer [32; 104; 105; 32]%N None [] 1%positive true))
           eq_refl eq_refl).
Defined.

(** The content that is sent for " hi " is "hi". *)
Example send_hi :
  (Chat.handleSendMessage Chat.Rev3
     (Chat.mkComposer [32; 104; 105; 32]%N None [] 1%positive true)).2
  = [Chat.EmitStopTyping; Chat.EmitSendMessage [104; 105]%N].
Proof. reflexivity. Qed.

(** Typing two characters, submitting, and the timer firing: one [typing],
    then the [stopTyping] of the submit, the message, and the [stopTyping]
    of the timer. *)
Example type_submit_timeout :
  (Chat.compose_all Chat.Rev3
     [Chat.Change [104]%N; Chat.Change [104; 105]%N; Chat.Submit; Chat.TimerFires 2]
     (Chat.composer_init true)).2
  = [Chat.EmitTyping; Chat.EmitStopTyping; Chat.EmitSendMessage [104; 105]%N;
     Chat.EmitStopTyping].
Proof. reflexivity. Qed.

(** After two reconnections the second revision calls the listener three
    times for one event. *)
Example second_revision_triples :
  Chat.deliver_earlier (Chat.after_connects Chat.Rev2 false 2)
    (Some (Client.mkMessage (Some "m1") None (Some "hi") None)) []
  = replicate 3 (Some (Client.mkMessage (Some "m1") None (Some "hi") None)).
Proof. reflexivity. Qed.

(** ** The clean-up of the effect *)

Lemma cleanup_listeners_filter t :
  cleanup_listeners t = filter (fun l => Chat.event l ∉ cleanup_events) t.
Proof.
  unfold cleanup_listeners, Chat.off, cleanup_events. rewrite !list_filter_filter.
  apply list_filter_iff. intros l. rewrite !not_elem_of_cons.
  pose proof (not_elem_of_nil (Chat.event l)). tauto.
Qed.

Lemma cleanup_repeat_listeners n rev : cleanup_listeners (repeat_listeners n rev) = [].
Proof.
  rewrite cleanup_listeners_filter.
  induction n as [|n IH]; [done|]. simpl. rewrite filter_app, IH.
  by destruct rev.
Qed.

(** [X18] In every revision, whether or not the socket was connected when
    the effect ran and after any number of ['connect'] events, the six [off]
    calls of the clean-up leave no listener for any of the events the
    component listens to, however many had piled up; what remains on the
    socket are the ['disconnect'] and ['connect_error'] loggers of
    [initializeSocket], whose ['connect'] and ['error'] loggers are removed
    as well. *)
Theorem X18_cleanup_removes_every_listener (rev : Chat.Revision) (connected : bool)
    (n : nat) :
  cleanup_listeners (Chat.after_connects rev connected n)
    = [Chat.mkListener "disconnect" Chat.LogDisconnect false;
       Chat.mkListener "connect_error" Chat.LogConnectError false]
  /\ Forall (fun ev =>
       Chat.listeners_of ev (cleanup_listeners (Chat.after_connects rev connected n)) = [])
       cleanup_events.
Proof.
  assert (cleanup_listeners (Chat.after_connects rev connected n)
          = [Chat.mkListener "disconnect" Chat.LogDisconnect false;
             Chat.mkListener "connect_error" Chat.LogConnectError false]) as Hclean.
  { destruct rev.
    - destruct connected.
      + assert (Chat.after_connects Chat.Rev1 true n
                = Chat.mount Chat.Rev1 true Chat.initial_listeners) as ->; [|done].
        induction n as [|n IH]; [done|].
        change (Chat.after_connects Chat.Rev1 true (S n))
          with (Chat.fire Chat.Rev1 "connect" (Chat.after_connects Chat.Rev1 true n)).
        by rewrite IH.
      + rewrite after_connects_Rev1_waiting, !cleanup_listeners_filter, filter_app.
        rewrite <- (cleanup_listeners_filter (repeat_listeners n Chat.Rev1)).
        by rewrite cleanup_repeat_listeners.
    - rewrite after_connects_Rev2, !cleanup_listeners_filter, filter_app.
      rewrite <- (cleanup_listeners_filter (repeat_listeners n Chat.Rev2)).
      rewrite cleanup_repeat_listeners. by destruct connected.
    - destruct n as [|n]; [by destruct connected|].
      assert (Chat.after_connects Chat.Rev3 connected (S n) = latest_table) as ->; [|done].
      induction n as [|n IH]; [by destruct connected|].
      change (Chat.after_connects Chat.Rev3 connected (S (S n)))
        with (Chat.fire Chat.Rev3 "connect" (Chat.after_connects Chat.Rev3 connected (S n))).
      by rewrite IH. }
  split; [done|]. rewrite Hclean. repeat constructor.
Qed.

(* ===================================================================== *)
(** ** The [sendMessage] handler between its [await]s *)
(* ===================================================================== *)

Lemma filter_eq_NoDup (x : nat) (l : list nat) :
  NoDup l -> x ∈ l -> filter (fun r => r = x) l = [x].
Proof.
  induction 1 as [|y l Hy Hnd IH]; [by intros ?%not_elem_of_nil|].
  intros [->|Hin]%elem_of_cons.
  - rewrite filter_cons_True by done. f_equal.
    apply filter_none. apply Forall_forall. intros z Hz ->. by apply Hy.
  - rewrite filter_cons_False by (intros ->; by apply Hy). by apply IH.
Qed.

Section InterleavingFacts.

Context {DB : Type} {store : MessageStore DB}.

Variable jwt_verify : JSValue -> option Identity.

(** *** The parts of the handler *)

Lemma sendMessage_dispatch_no_payload socket data fresh_id now (st : State DB) e :
  get_property data "content" = Throw e ->
  sendMessage_dispatch socket data fresh_id now st
  = (Ok None, st,
     [Emitted (SocketEmit (socket_id socket)) (ErrorEvent "Failed to send message")
        (filter (fun r => r = socket_id socket) (socket_id <$> sockets st))]).
Proof.
  intros Hc. unfold sendMessage_dispatch, try_catch, bind, lift. by rewrite Hc.
Qed.

Lemma sendMessage_dispatch_readable socket data fresh_id now (st : State DB) c :
  get_property data "content" = Ok c ->
  sendMessage_dispatch socket data fresh_id now st
  = (Ok (Some (AwaitingSave socket (mkDoc fresh_id (id (user socket)) c now))), st,
     [CallSave (mkDoc fresh_id (id (user socket)) c now)]).
Proof.
  intros Hc. unfold sendMessage_dispatch, try_catch, bind, lift. by rewrite Hc.
Qed.

Lemma resume_save_rejected socket message (st : State DB) :
  Message_save message (db st) = None ->
  resume (AwaitingSave socket message) st
  = (Ok None, st,
     [Emitted (SocketEmit (socket_id socket)) (ErrorEvent "Failed to send message")
        (filter (fun r => r = socket_id socket) (socket_id <$> sockets st))]).
Proof.
  intros Hs. unfold resume, try_catch, bind, save_settles. by rewrite Hs.
Qed.

Lemma resume_save_accepted socket message (st : State DB) d1 :
  Message_save message (db st) = Some d1 ->
  resume (AwaitingSave socket message) st
  = (Ok (Some (AwaitingReadBack socket (doc_id message))), with_db d1 st,
     [CallFindById (doc_id message)]).
Proof.
  intros Hs. unfold resume, try_catch, bind, save_settles. by rewrite Hs.
Qed.

Lemma resume_read_back_rejected socket mid (st : State DB) :
  Message_findById_populate mid (db st) = None ->
  resume (AwaitingReadBack socket mid) st
  = (Ok None, st,
     [Emitted (SocketEmit (socket_id socket)) (ErrorEvent "Failed to send message")
        (filter (fun r => r = socket_id socket) (socket_id <$> sockets st))]).
Proof.
  intros Hf. unfold resume, try_catch, bind, read_back_settles. by rewrite Hf.
Qed.

(** [io.emit] runs in the last part: its recipients are the sockets
    connected in the state that part runs in. *)
Lemma resume_read_back socket mid (st : State DB) p :
  Message_findById_populate mid (db st) = Some p ->
  resume (AwaitingReadBack socket mid) st
  = (Ok None, st, [Emitted IoEmit (NewMessage p) (socket_id <$> sockets st)]).
Proof.
  intros Hf. unfold resume, try_catch, bind, read_back_settles. by rewrite Hf.
Qed.

(** No part of the handler lets an exception escape, and no part touches
    the registry or the sockets. *)
Lemma resume_state p (st : State DB) :
  exists r, (resume p st).1.1 = Ok r
  /\ activeUsers (resume p st).1.2 = activeUsers st
  /\ sockets (resume p st).1.2 = sockets st
  /\ next_socket_id (resume p st).1.2 = next_socket_id st.
Proof.
  destruct p as [socket message|socket mid].
  - destruct (Message_save message (db st)) as [d1|] eqn:Hs.
    + erewrite resume_save_accepted by done. by eexists.
    + erewrite resume_save_rejected by done. by eexists.
  - destruct (Message_findById_populate mid (db st)) as [p|] eqn:Hf.
    + erewrite resume_read_back by done. by eexists.
    + erewrite resume_read_back_rejected by done. by eexists.
Qed.

(** The handler of [on_sendMessage] is the one schedule in which nothing
    happens between the parts: for a connected socket the two agree. *)
Lemma sendMessage_uninterrupted_on_sendMessage socket data fresh_id now (st : State DB) :
  NoDup (socket_id <$> sockets st) ->
  socket ∈ sockets st ->
  sendMessage_uninterrupted socket data fresh_id now st
  = on_sendMessage socket data fresh_id now st.
Proof.
  intros Hnd Hin.
  assert (filter (fun r => r = socket_id socket) (socket_id <$> sockets st)
          = [socket_id socket]) as Hto.
  { apply filter_eq_NoDup; [done|]. by apply list_elem_of_fmap_2. }
  unfold sendMessage_uninterrupted, bind at 1.
  destruct (get_property data "content") as [c|e] eqn:Hc.
  - erewrite sendMessage_dispatch_readable by done.
    unfold bind at 1.
    destruct (Message_save (mkDoc fresh_id (id (user socket)) c now) (db st))
      as [d1|] eqn:Hs.
    + erewrite resume_save_accepted by done.
      unfold bind at 1. simpl doc_id.
      destruct (Message_findById_populate fresh_id d1) as [p|] eqn:Hf.
      * erewrite resume_read_back by done.
        by erewrite on_sendMessage_persisted.
      * erewrite resume_read_back_rejected by done. simpl. rewrite Hto.
        by erewrite on_sendMessage_read_back_rejected.
    + erewrite resume_save_rejected by done. simpl. rewrite Hto.
      by erewrite on_sendMessage_save_rejected.
  - erewrite sendMessage_dispatch_no_payload by done. simpl. rewrite Hto.
    by erewrite on_sendMessage_no_payload.
Qed.

(** *** The server with waiting handlers *)

(** Whatever the event loop takes up, a [newMessage] is emitted only where a
    handler goes on after its read-back, and it goes to the sockets connected
    at that moment. *)
Lemma occur_new_message_recipients o (a : Interleaved DB) m to :
  (m, to) ∈ new_message_emissions (occur jwt_verify o a).2 ->
  to = socket_id <$> sockets (server a)
  /\ exists k socket mid,
       o = Settles k
       /\ awaiting a !! k = Some (AwaitingReadBack socket mid)
       /\ Message_findById_populate mid (db (server a)) = Some m.
Proof.
  destruct o as [i|k]; simpl.
  - destruct i as [token|sid data fresh_id now|sid|sid|sid]; simpl.
    + unfold bind. destruct (auth_middleware jwt_verify token); simpl;
        by intros ?%not_elem_of_nil.
    + destruct (find_socket sid (sockets (server a))) as [socket|];
        [|by intros ?%not_elem_of_nil].
      destruct (get_property data "content") as [c|e] eqn:Hc.
      * erewrite sendMessage_dispatch_readable by done. by intros ?%not_elem_of_nil.
      * erewrite sendMessage_dispatch_no_payload by done. by intros ?%not_elem_of_nil.
    + unfold with_socket. destruct (find_socket sid (sockets (server a)));
        by intros ?%not_elem_of_nil.
    + unfold with_socket. destruct (find_socket sid (sockets (server a)));
        by intros ?%not_elem_of_nil.
    + unfold with_socket. destruct (find_socket sid (sockets (server a)));
        by intros ?%not_elem_of_nil.
  - destruct (awaiting a !! k) as [[socket message|socket mid]|] eqn:Hk;
      [| |by intros ?%not_elem_of_nil].
    + destruct (Message_save message (db (server a))) as [d1|] eqn:Hs.
      * erewrite resume_save_accepted by done. by intros ?%not_elem_of_nil.
      * erewrite resume_save_rejected by done. by intros ?%not_elem_of_nil.
    + destruct (Message_findById_populate mid (db (server a))) as [p|] eqn:Hf.
      * erewrite resume_read_back by done. simpl.
        intros Hin%list_elem_of_singleton. injection Hin as -> ->.
        split; [done|]. by exists k, socket, mid.
      * erewrite resume_read_back_rejected by done. by intros ?%not_elem_of_nil.
Qed.

(** [C3] A submission whose content can be read, whose record [save]
    accepts and whose read-back succeeds, in the three parts of its handler:
    called on [a1], it hands one record, built from the content and the
    identity of the socket, to [save] and waits; going on in [a2], it asks
    for the read-back and waits; going on in [a3], it makes one [newMessage]
    emission, an [io.emit] of the record read back, whose recipients are all
    the sockets connected in [a3], the state in which [io.emit] runs, the
    sender among them when it is still connected. Over the three parts there
    is exactly one record handed to [save] and exactly one [newMessage]
    emission. *)
Theorem C3_persisted_message_broadcast_to_all (a1 a2 a3 : Interleaved DB)
    sid socket data fresh_id now c d1 p k2 k3 :
  find_socket sid (sockets (server a1)) = Some socket ->
  get_property data "content" = Ok c ->
  let message := mkDoc fresh_id (id (user socket)) c now in
  awaiting a2 !! k2 = Some (AwaitingSave socket message) ->
  Message_save message (db (server a2)) = Some d1 ->
  awaiting a3 !! k3 = Some (AwaitingReadBack socket fresh_id) ->
  Message_findById_populate fresh_id (db (server a3)) = Some p ->
  let called := occur jwt_verify (Arrives (SendMessage sid data fresh_id now)) a1 in
  let saved := occur jwt_verify (Settles k2) a2 in
  let read_back := occur jwt_verify (Settles k3) a3 in
  called = (mkInterleaved (server a1) (awaiting a1 ++ [AwaitingSave socket message]),
            [CallSave message])
  /\ saved = (mkInterleaved (with_db d1 (server a2))
                (delete k2 (awaiting a2) ++ [AwaitingReadBack socket fresh_id]),
              [CallFindById fresh_id])
  /\ read_back = (mkInterleaved (server a3) (delete k3 (awaiting a3)),
                  [Emitted IoEmit (NewMessage p) (socket_id <$> sockets (server a3))])
  /\ saved_docs (called.2 ++ saved.2 ++ read_back.2) = [message]
  /\ new_message_emissions (called.2 ++ saved.2 ++ read_back.2)
     = [(p, socket_id <$> sockets (server a3))]
  /\ (forall s, s ∈ sockets (server a3) ->
        (socket_id s, NewMessage p) ∈ deliveries read_back.2)
  /\ (socket ∈ sockets (server a3) ->
      (socket_id socket, NewMessage p) ∈ deliveries read_back.2).
Proof.
  intros Hsock Hc message Hk2 Hs Hk3 Hf called saved read_back.
  assert (called = (mkInterleaved (server a1)
                      (awaiting a1 ++ [AwaitingSave socket message]),
                    [CallSave message])) as Hcalled.
  { subst called. simpl. rewrite Hsock.
    by erewrite sendMessage_dispatch_readable. }
  assert (saved = (mkInterleaved (with_db d1 (server a2))
                     (delete k2 (awaiting a2) ++ [AwaitingReadBack socket fresh_id]),
                   [CallFindById fresh_id])) as Hsaved.
  { subst saved. simpl. rewrite Hk2. by erewrite resume_save_accepted. }
  assert (read_back = (mkInterleaved (server a3) (delete k3 (awaiting a3)),
                       [Emitted IoEmit (NewMessage p)
                          (socket_id <$> sockets (server a3))])) as Hread.
  { subst read_back. simpl. rewrite Hk3. erewrite resume_read_back by done.
    simpl. by rewrite app_nil_r. }
  assert (forall s, s ∈ sockets (server a3) ->
            (socket_id s, NewMessage p) ∈ deliveries read_back.2) as Hall.
  { intros s Hin. rewrite Hread. simpl. rewrite app_nil_r.
    apply (list_elem_of_fmap_2 (fun r => (r, NewMessage p))).
    by apply list_elem_of_fmap_2. }
  split; [done|]. split; [done|]. split; [done|].
  split; [by rewrite Hcalled, Hsaved, Hread|].
  split; [by rewrite Hcalled, Hsaved, Hread|].
  split; [exact Hall|]. intros Hin. by apply Hall.
Qed.

End InterleavingFacts.

(** Bob sends "hi" while alice and bob are connected; a second socket of
    alice connects while the record is being saved. *)
Example hi_during_connect_log :
  (occur_all demo_verify hi_during_connect (init_interleaved demo_db)).2
  = [ (* alice connects *)
      Emitted (SocketEmit 0) (ActiveUsers [mkEntry (Some "u1") "alice" 0]) [0];
      Emitted (SocketBroadcastEmit 0) (ActiveUsers [mkEntry (Some "u1") "alice" 0]) [];
      Join 0 "u1";
      (* bob connects *)
      Emitted (SocketEmit 1)
        (ActiveUsers [mkEntry (Some "u1") "alice" 0; mkEntry (Some "u2") "bob" 1]) [1];
      Emitted (SocketBroadcastEmit 1)
        (ActiveUsers [mkEntry (Some "u1") "alice" 0; mkEntry (Some "u2") "bob" 1]) [0];
      Join 1 "u2";
      (* bob sends *)
      CallSave (mkDoc "m1" "u2" (JString "hi") 5);
      (* the second socket of alice connects *)
      Emitted (SocketEmit 2)
        (ActiveUsers [mkEntry (Some "u1") "alice2" 2; mkEntry (Some "u2") "bob" 1]) [2];
      Emitted (SocketBroadcastEmit 2)
        (ActiveUsers [mkEntry (Some "u1") "alice2" 2; mkEntry (Some "u2") "bob" 1]) [0; 1];
      Join 2 "u1";
      (* the handler goes on *)
      CallFindById "m1";
      Emitted IoEmit
        (NewMessage (Some (mkPopulated "m1" (Some (mkUserRef "u2" "bob")) (JString "hi") 5)))
        [0; 1; 2] ].
Proof. reflexivity. Qed.

(** The sender disconnects while its record is being saved: the message is
    broadcast to the sockets that remain. *)
Example sender_gone_before_broadcast :
  new_message_emissions
    (occur_all demo_verify
       [Arrives (Connect (JString "alice-token"));
        Arrives (Connect (JString "bob-token"));
        Arrives (SendMessage 1 hi_payload "m1" 5);
        Arrives (Disconnect 1);
        Settles 0;
        Settles 0]
       (init_interleaved demo_db)).2
  = [(Some (mkPopulated "m1" (Some (mkUserRef "u2" "bob")) (JString "hi") 5), [0])].
Proof. reflexivity. Qed.

(** [C3] at bob sending "hi", a second socket of alice connecting while the
    record is being saved. *)
Lemma C3_persisted_message_witness :
  find_socket 1 (sockets (server (hi_during_connect_at 2))) = Some bob_socket
  /\ awaiting (hi_during_connect_at 4) !! 0
     = Some (AwaitingSave bob_socket (mkDoc "m1" "u2" (JString "hi") 5))
  /\ awaiting (hi_during_connect_at 5) !! 0 = Some (AwaitingReadBack bob_socket "m1")
  /\ socket_id <$> sockets (server (hi_during_connect_at 2)) = [0; 1]
  /\ (occur demo_verify (Settles 0) (hi_during_connect_at 5)).2
     = [Emitted IoEmit (NewMessage (Some hi_message)) [0; 1; 2]]
  /\ (1, NewMessage (Some hi_message))
       ∈ deliveries (occur demo_verify (Settles 0) (hi_during_connect_at 5)).2.
Proof.
  split; [reflexivity|]. split; [reflexivity|]. split; [reflexivity|].
  split; [reflexivity|].
  destruct (C3_persisted_message_broadcast_to_all (store := SpecStore) demo_verify
              (hi_during_connect_at 2) (hi_during_connect_at 4) (hi_during_connect_at 5)
              1 bob_socket hi_payload "m1" 5%Z (JString "hi")
              (mkMemDB (mem_users demo_db) [mkDoc "m1" "u2" (JString "hi") 5])
              (Some hi_message) 0 0
              eq_refl eq_refl eq_refl eq_refl eq_refl eq_refl)
    as (_ & _ & Hread & _ & _ & _ & Hsender).
  split.
  - rewrite Hread. reflexivity.
  - apply Hsender. apply list_elem_of_further, list_elem_of_here.
Defined.

(* ===================================================================== *)
(** ** The roster and the connected identities *)
(* ===================================================================== *)

Section RosterFacts.

Context {DB : Type} {store : MessageStore DB}.

Variable jwt_verify : JSValue -> option Identity.

(** [C8, as amended] In every reachable state and for every input, each
    [activeUsers] payload the step emits is the sequence of the records the
    registry holds after the step. Each record carries the id it is stored
    under and the username and socket id of a socket that is connected, so
    every identity listed is present. The ids are pairwise distinct; they
    are the ids whose last registry operation is a registration
    (a connection of that identity with no disconnection of any of its
    sockets since), in the order in which their current entries were
    inserted. *)
Theorem C8_roster_lists_registry_records (d : DB) inputs i :
  let st := state_after jwt_verify inputs (init_state d) in
  let ops := history jwt_verify (inputs ++ [i]) (init_state d) in
  let after_ := (step jwt_verify i st).1.2 in
  let registry := activeUsers after_ in
  registry = registry_after ops
  /\ Forall (fun roster => roster = map_values registry)
       (emitted_rosters (step jwt_verify i st).2)
  /\ Forall2 (fun k e => entry_id e = Some k) (map_keys registry) (map_values registry)
  /\ Forall (fun e => exists socket, socket ∈ sockets after_
               /\ Register socket ∈ ops
               /\ e = mkEntry (Some (id (user socket))) (username (user socket))
                        (socket_id socket))
       (map_values registry)
  /\ NoDup (map_keys registry)
  /\ insertion_ordered ops registry.
Proof.
  intros st ops after_ registry.
  destruct (roster_payload_is_registry_snapshot jwt_verify d inputs i)
    as (Hreg & Hrosters & Hkeyed & Hentries & Hnd & Hord).
  split; [done|]. split; [done|]. split; [done|].
  split; [|by split].
  pose proof (run_registry_connected jwt_verify (inputs ++ [i]) d) as Hconn.
  rewrite state_after_snoc in Hconn. fold st after_ in Hconn.
  apply Forall_forall. intros e He. rewrite Forall_forall in Hentries.
  destruct (Hentries e He) as (socket & Hop & ->).
  apply list_elem_of_fmap in He as ([k e'] & He' & Hin). simpl in He'. subst e'.
  unfold registry_connected in Hconn. rewrite Forall_forall in Hconn.
  destruct (Hconn _ Hin) as (s & Hs & Heq & Hid). simpl in Heq, Hid.
  injection Heq as Hk Hname Hsid.
  assert (socket = s) as ->.
  { destruct socket as [n [u1 u2]], s as [n' [u1' u2']]. simpl in *. congruence. }
  by exists s.
Qed.

End RosterFacts.
